(** * The node translator of the page-translation engine

    A shallow embedding of [src/modules/NodesTranslator.tsx] (the
    per-node lifecycle store, the eligibility filter, the lazy viewport
    gate, the tree walk) and of the epoch guard of
    [src/modules/PageTranslator/PageTranslator.tsx].

    Conventions of the embedding.
    - A DOM node is referred to through a handle [Node]: what a script
      can read going upwards from the node (its type, its names, its
      [parentNode] chain, its [ownerElement]).  The identity of the
      node object, the key of the [WeakMap]s and [WeakSet]s of the
      source, is [nodeKey].
    - What a script reads going downwards from a node (child nodes,
      attributes, shadow root) is a [DomTree].
    - [node.nodeValue] is mutable and lives in the state, keyed by
      [nodeKey]; a node without an entry has [nodeValue === null].
    - JavaScript numbers used as counters are modelled in [N] where
      the source only increments them, in [Z] where it also decrements.
    - A call of the asynchronous [translateCallback] is recorded in the
      state; its settlement is a separate step, taken at any later time.
    - A JavaScript string is a [string] whose characters are code units
      below 256. *)

From Stdlib Require Import Ascii String NArith Lia.
From stdpp Require Import base option list gmap strings.

Set Warnings "-register-all,-clear-no-such-hyp".

Local Open Scope string_scope.
Local Open Scope N_scope.
Local Open Scope list_scope.

(** ** Strings: [String.prototype.trim] *)

Module JsString.

(** Code units below 256 that ECMAScript counts as white space or as
    line terminators: TAB, LF, VT, FF, CR, SP, NBSP. *)
Definition whiteSpaceCodes : list nat := [9; 10; 11; 12; 13; 32; 160]%nat.

Definition isWhiteSpace (c : ascii) : bool :=
  bool_decide (nat_of_ascii c ∈ whiteSpaceCodes).

Fixpoint trimStart (s : string) : string :=
  match s with
  | EmptyString => EmptyString
  | String c s' => if isWhiteSpace c then trimStart s' else s
  end.

Fixpoint trimEnd (s : string) : string :=
  match s with
  | EmptyString => EmptyString
  | String c s' =>
      match trimEnd s' with
      | EmptyString => if isWhiteSpace c then EmptyString else String c EmptyString
      | r => String c r
      end
  end.

Definition trim (s : string) : string := trimEnd (trimStart s).

Fixpoint allWhiteSpace (s : string) : bool :=
  match s with
  | EmptyString => true
  | String c s' => isWhiteSpace c && allWhiteSpace s'
  end.

End JsString.

(** ** The DOM as the translator reads it *)

Module Dom.

Definition Key := positive.
Bind Scope positive_scope with Key.

(** The classes the source tests with [instanceof]: [Element] (with
    [localName] and [nodeName]), [Attr] (with [name]), [Text], and
    everything else (comments, documents, shadow roots, ...). *)
Inductive NodeType :=
| ElementType (localName nodeName : string)
| AttrType (name : string)
| TextType
| OtherType.

(** A node handle.  [parentNode] is [null] for an [Attr] in a real
    document (an attribute is not a child of its element); the element
    of an attribute is its [ownerElement]. *)
Inductive Node := mkNode {
  nodeKey : Key;
  nodeType : NodeType;
  parentNode : option Node;
  ownerElement : option Node
}.

Definition isElement (n : Node) : bool :=
  match nodeType n with ElementType _ _ => true | _ => false end.

Definition isAttr (n : Node) : bool :=
  match nodeType n with AttrType _ => true | _ => false end.

(** [node.parentElement]: the parent when it is an [Element]. *)
Definition parentElement (n : Node) : option Node :=
  match parentNode n with
  | Some p => if isElement p then Some p else None
  | None => None
  end.

(** The proper ancestors of a node, nearest first: the values taken by
    [lookingNode = lookingNode.parentNode] until it is [null]. *)
Fixpoint ancestors (n : Node) : list Node :=
  match n with
  | mkNode _ _ (Some p) _ => p :: ancestors p
  | mkNode _ _ None _ => []
  end.

(** [node.getRootNode()]. *)
Fixpoint getRootNode (n : Node) : Node :=
  match n with
  | mkNode _ _ (Some p) _ => getRootNode p
  | mkNode _ _ None _ => n
  end.

(** [other.contains(node)]: [node] is [other] or one of its descendants. *)
Definition contains (other : Key) (n : Node) : bool :=
  existsb (λ a, bool_decide (nodeKey a = other)) (n :: ancestors n).

(** The downward view of a node: itself, its shadow root's child nodes
    when it hosts one, its attributes, its child nodes. *)
Inductive DomTree :=
| TNode (self : Node) (shadowRoot : option (list DomTree))
        (attributes : list Node) (childNodes : list DomTree).

Definition self (t : DomTree) : Node := let 'TNode n _ _ _ := t in n.
Definition childNodes (t : DomTree) : list DomTree := let 'TNode _ _ _ c := t in c.
Definition attributes (t : DomTree) : list Node := let 'TNode _ _ a _ := t in a.

End Dom.

Export Dom.

(** ** Results of operations that may throw *)

(** An operation either returns a value or throws; in both cases the
    writes made so far stay in the state. *)
Inductive Result (S A : Type) :=
| Ok (a : A) (st : S)
| Throw (msg : string) (st : S).
Arguments Ok {S A} a st.
Arguments Throw {S A} msg st.

Definition M (S A : Type) := S → Result S A.

Definition ret {S A} (a : A) : M S A := λ st, Ok a st.

Definition bind {S A B} (m : M S A) (k : A → M S B) : M S B :=
  λ st, match m st with
        | Ok a st' => k a st'
        | Throw msg st' => Throw msg st'
        end.

(** A write to the state. *)
Definition modify {S} (f : S → S) : M S () := λ st, Ok () (f st).

Definition stateOf {S A} (r : Result S A) : S :=
  match r with Ok _ st => st | Throw _ st => st end.

Definition isOk {S A} (r : Result S A) : bool :=
  match r with Ok _ _ => true | Throw _ _ => false end.

Notation "m ;>> k" := (bind m (λ _, k))
  (at level 100, k at level 200, right associativity, only parsing).

(** [list.forEach(f)] and [for (const x of list) f(x)]. *)
Fixpoint forEach {S A} (f : A → M S ()) (l : list A) : M S () :=
  match l with
  | [] => ret ()
  | x :: l' => f x ;>> forEach f l'
  end.

(** ** Promises *)

Inductive Settled (A : Type) :=
| Fulfilled (value : A)
| Rejected (reason : string).
Arguments Fulfilled {A} value.
Arguments Rejected {A} reason.

(** [promise.then(onFulfilled)] once [promise] has settled: the
    callback runs on a fulfilled promise only; a rejection passes
    through to the promise that [then] returned. *)
Definition promiseThen {S A B} (p : Settled A) (onFulfilled : A → S → B * S)
  (st : S) : Settled B * S :=
  match p with
  | Fulfilled v => let '(b, st') := onFulfilled v st in (Fulfilled b, st')
  | Rejected reason => (Rejected reason, st)
  end.

(** [promise.catch(onRejected)] with a handler that throws again. *)
Definition promiseCatchRethrow {S A} (p : Settled A) (onRejected : string → S → string * S)
  (st : S) : Settled A * S :=
  match p with
  | Fulfilled v => (Fulfilled v, st)
  | Rejected reason => let '(thrown, st') := onRejected reason st in (Rejected thrown, st')
  end.

(** [promise.finally(onFinally)]: the callback runs in both cases and
    the outcome passes through. *)
Definition promiseFinally {S A} (p : Settled A) (onFinally : S → S)
  (st : S) : Settled A * S :=
  (p, onFinally st).

(** ** The node translator *)

Module NodesTranslator.

(** *** Configuration *)

(** [Config]: what the caller may pass; every field is optional. *)
Record Config := mkConfig {
  cfgIgnoredTags : option (list string);
  cfgTranslatableAttributes : option (list string);
  cfgLazyTranslate : option bool
}.

Record InnerConfig := mkInnerConfig {
  ignoredTags : gset string;
  translatableAttributes : gset string;
  lazyTranslate : bool
}.

(** [list.filter(String)] keeps the strings that are truthy: the
    non-empty ones. *)
Definition filterString (l : list string) : list string :=
  filter (λ s, s ≠ "") l.

(** The constructor's [this.config]. *)
Definition innerConfig (config : option Config) : InnerConfig :=
  {| ignoredTags :=
       match config ≫= cfgIgnoredTags with
       | Some tags => list_to_set (filterString tags)
       | None => ∅
       end;
     translatableAttributes :=
       match config ≫= cfgTranslatableAttributes with
       | Some attrs => list_to_set (filterString attrs)
       | None => ∅
       end;
     lazyTranslate :=
       match config ≫= cfgLazyTranslate with
       | Some b => b
       | None => true
       end |}.

(** What the translator reads from the page apart from the nodes: the
    key of [document.body] and the geometry test [isInViewport]. *)
Record Env := mkEnv {
  documentBody : Key;
  isInViewport : Key → bool
}.

(** *** The state *)

Record NodeData := mkNodeData {
  id : N;
  updateId : N;
  translateContext : N;
  originalText : string;
  priority : N
}.

(** A call of [translateCallback] made by [translateNode], with what
    the continuation passed to [then] captured: the node, [nodeId] and
    [nodeContext]. *)
Record Request := mkRequest {
  reqNode : Node;
  reqNodeId : N;
  reqNodeContext : N;
  reqText : string;
  reqPriority : N
}.

Record State := mkState {
  (** [node.nodeValue] of every node that has one *)
  nodeValue : gmap Key string;
  idCounter : N;
  nodeStorage : gmap Key NodeData;
  itersectStorage : gset Key;
  (** the targets of [itersectObserver] *)
  itersectObserved : gset Key;
  (** the keys of the map [observedNodesStorage] *)
  observedNodesStorage : gset Key;
  (** the roots watched by a connected [XMutationObserver] *)
  mutationObserved : gset Key;
  (** the calls of [translateCallback], oldest first *)
  translateCalls : list Request
}.

Definition setNodeValues (v : gmap Key string) (st : State) : State :=
  mkState v (idCounter st) (nodeStorage st) (itersectStorage st)
    (itersectObserved st) (observedNodesStorage st) (mutationObserved st)
    (translateCalls st).

Definition setIdCounter (c : N) (st : State) : State :=
  mkState (nodeValue st) c (nodeStorage st) (itersectStorage st)
    (itersectObserved st) (observedNodesStorage st) (mutationObserved st)
    (translateCalls st).

Definition setNodeStorage (m : gmap Key NodeData) (st : State) : State :=
  mkState (nodeValue st) (idCounter st) m (itersectStorage st)
    (itersectObserved st) (observedNodesStorage st) (mutationObserved st)
    (translateCalls st).

Definition setItersect (s o : gset Key) (st : State) : State :=
  mkState (nodeValue st) (idCounter st) (nodeStorage st) s o
    (observedNodesStorage st) (mutationObserved st) (translateCalls st).

Definition setObserved (s w : gset Key) (st : State) : State :=
  mkState (nodeValue st) (idCounter st) (nodeStorage st) (itersectStorage st)
    (itersectObserved st) s w (translateCalls st).

Definition setTranslateCalls (l : list Request) (st : State) : State :=
  mkState (nodeValue st) (idCounter st) (nodeStorage st) (itersectStorage st)
    (itersectObserved st) (observedNodesStorage st) (mutationObserved st) l.

(** [node.nodeValue = text]: setting the value of a node whose value
    is [null] has no effect. *)
Definition writeNodeValue (k : Key) (text : string) (v : gmap Key string)
  : gmap Key string :=
  match v !! k with
  | Some _ => <[k := text]> v
  | None => v
  end.

Definition withOriginalText (text : string) (d : NodeData) : NodeData :=
  mkNodeData (id d) (updateId d) (translateContext d) text (priority d).

Definition withTranslateContext (c : N) (d : NodeData) : NodeData :=
  mkNodeData (id d) (updateId d) c (originalText d) (priority d).

Definition withUpdateId (u : N) (d : NodeData) : NodeData :=
  mkNodeData (id d) u (translateContext d) (originalText d) (priority d).

Arguments setNodeValues _ _ /.
Arguments setIdCounter _ _ /.
Arguments setNodeStorage _ _ /.
Arguments setItersect _ _ _ /.
Arguments setObserved _ _ _ /.
Arguments setTranslateCalls _ _ /.
Arguments withOriginalText _ _ /.
Arguments withTranslateContext _ _ /.
Arguments withUpdateId _ _ /.

(** *** The functions of the source *)

(** The loop of [searchParent]. *)
Fixpoint searchParentLoop (callback : Node → bool) (lookingNode : Node)
  : option Node :=
  match lookingNode with
  | mkNode _ _ (Some p) _ =>
      if callback p then Some p else searchParentLoop callback p
  | mkNode _ _ None _ => None
  end.

Definition searchParent (node : Node) (callback : Node → bool)
  (includeSelf : bool) : option Node :=
  if includeSelf && callback node then Some node
  else searchParentLoop callback node.

Definition localName (n : Node) : string :=
  match nodeType n with ElementType l _ => l | _ => "" end.

Definition nodeName (n : Node) : string :=
  match nodeType n with ElementType _ u => u | _ => "" end.

Definition attrName (n : Node) : string :=
  match nodeType n with AttrType a => a | _ => "" end.

Section Engine.

Context (config : InnerConfig) (env : Env).

(** The callback [isTranslatableNode] gives to [searchParent]. *)
Definition isIgnoredElement (node : Node) : bool :=
  isElement node && bool_decide (localName node ∈ ignoredTags config).

Definition isTranslatableNode (targetNode : Node) : bool :=
  let checkParents (targetToParentsCheck : option Node) :=
    match targetToParentsCheck with
    | Some e =>
        match searchParent e isIgnoredElement true with
        | Some _ => false
        | None => true
        end
    | None => true
    end in
  match nodeType targetNode with
  | ElementType l _ =>
      if bool_decide (l ∈ ignoredTags config) then false
      else checkParents (Some targetNode)
  | AttrType a =>
      if negb (bool_decide (a ∈ translatableAttributes config)) then false
      else checkParents (ownerElement targetNode)
  | TextType => checkParents (parentElement targetNode)
  | OtherType => false
  end.

Definition isIntersectableNode (node : Node) : bool :=
  if bool_decide (nodeName node = "OPTION") then false
  else contains (documentBody env) node.

Definition getNodeScore (node : Node) : N :=
  match nodeType node with
  | AttrType _ =>
      1 + match ownerElement node with
          | Some parent => if isInViewport env (nodeKey parent) then 2 else 0
          | None => 0
          end
  | TextType =>
      2 + match parentElement node with
          | Some parent => if isInViewport env (nodeKey parent) then 2 else 0
          | None => 0
          end
  | _ => 0
  end.

(** [handleTree]: the tree walker visits [node] and its descendants in
    document order; at each element the shadow root's element children
    are walked as further roots, then the attributes are passed to the
    callback. *)
Fixpoint handleTree (callback : Node → M State ()) (t : DomTree) : M State () :=
  match t with
  | TNode node shadow attrs children =>
      callback node ;>>
      (if isElement node then
         match shadow with
         | Some roots =>
             (fix shadowChildren (l : list DomTree) : M State () :=
                match l with
                | [] => ret ()
                | child :: l' =>
                    (if isElement (self child) then handleTree callback child
                     else ret ()) ;>>
                    shadowChildren l'
                end) roots
         | None => ret ()
         end ;>>
         forEach callback attrs
       else ret ()) ;>>
      (fix walk (l : list DomTree) : M State () :=
         match l with
         | [] => ret ()
         | child :: l' => handleTree callback child ;>> walk l'
         end) children
  end.

Definition translateNode (node : Node) : M State () := λ st,
  match nodeStorage st !! nodeKey node with
  | None => Throw "Node is not register" st
  | Some nodeData =>
      match nodeValue st !! nodeKey node with
      | None => Ok () st
      | Some text =>
          if updateId nodeData <=? translateContext nodeData then Ok () st
          else
            Ok () (setTranslateCalls
                     (translateCalls st ++
                        [mkRequest node (id nodeData) (updateId nodeData)
                           text (priority nodeData)]) st)
      end
  end.

(** The continuation of [translateNode], run with the translated text. *)
Definition onTranslated (req : Request) (text : string) (st : State)
  : option Node * State :=
  let node := reqNode req in
  match nodeStorage st !! nodeKey node with
  | None => (None, st)
  | Some actualNodeData =>
      if negb (reqNodeId req =? id actualNodeData) then (None, st)
      else if negb (reqNodeContext req =? updateId actualNodeData) then (None, st)
      else
        let original := default "" (nodeValue st !! nodeKey node) in
        let data :=
          withTranslateContext (updateId actualNodeData + 1)
            (withOriginalText original actualNodeData) in
        (Some node,
         setNodeValues (writeNodeValue (nodeKey node) text (nodeValue st))
           (setNodeStorage (<[nodeKey node := data]> (nodeStorage st)) st))
  end.

(** The promise [translateNode] returned, once the promise of
    [translateCallback] has settled. *)
Definition settleTranslate (req : Request) (outcome : Settled string)
  : State → Settled (option Node) * State :=
  promiseThen outcome (onTranslated req).

Definition handleNode (node : Node) : M State () := λ st,
  if bool_decide (is_Some (nodeStorage st !! nodeKey node)) then Ok () st
  else
    match nodeValue st !! nodeKey node with
    | None => Ok () st
    | Some value =>
        if (String.length (JsString.trim value) =? 0)%nat then Ok () st
        else if negb (isTranslatableNode node) then Ok () st
        else
          let priority := getNodeScore node in
          translateNode node
            (setIdCounter (idCounter st + 1)
               (setNodeStorage
                  (<[nodeKey node := mkNodeData (idCounter st) 1 0 "" priority]>
                     (nodeStorage st)) st))
    end.

Definition handleElementByIntersectViewport (node : Node) : M State () := λ st,
  if bool_decide (nodeKey node ∈ itersectStorage st) then Ok () st
  else Ok () (setItersect ({[nodeKey node]} ∪ itersectStorage st)
                ({[nodeKey node]} ∪ itersectObserved st) st).

(** The callback [intersectNode] gives to [childNodes.forEach]. *)
Definition intersectCallback (child : DomTree) : M State () :=
  let node := self child in
  if isElement node || negb (isTranslatableNode node) then ret ()
  else handleNode node.

Definition intersectNode (t : DomTree) : M State () :=
  forEach intersectCallback (childNodes t).

(** The callback of [itersectObserver]; an entry is the target and
    [isIntersecting]. *)
Definition onIntersection (entries : list (DomTree * bool)) : M State () :=
  forEach (λ entry : DomTree * bool,
      let node := entry.1 in
      λ st,
        if negb (bool_decide (nodeKey (self node) ∈ itersectStorage st))
           || negb entry.2
        then Ok () st
        else
          intersectNode node
            (setItersect (itersectStorage st ∖ {[nodeKey (self node)]})
               (itersectObserved st ∖ {[nodeKey (self node)]}) st))
    entries.

Definition isAttachedToDOM (node : Node) : bool :=
  negb (bool_decide (nodeKey (getRootNode node) = nodeKey node)).

Definition observableNode (node : Node) : option Node :=
  if isAttr node then ownerElement node else parentElement node.

(** [addNode] on a node that is not an [Element]. *)
Definition addNodeUnit (node : Node) : M State () :=
  let immediately := handleNode node in
  if lazyTranslate config then
    match observableNode node with
    | Some observable =>
        if isAttachedToDOM node && isIntersectableNode observable
        then handleElementByIntersectViewport observable
        else immediately
    | None => immediately
    end
  else immediately.

(** The callback [addNode] gives to [handleTree]. *)
Definition addNodeCallback (node : Node) : M State () :=
  if isElement node then ret ()
  else if isTranslatableNode node then addNodeUnit node
  else ret ().

Definition addNode (t : DomTree) : M State () :=
  if isElement (self t) then handleTree addNodeCallback t
  else addNodeUnit (self t).

(** [deleteNode(node, true)]. *)
Definition deleteNodeOnlyTarget (node : Node) : M State () := λ st,
  let st1 :=
    if isElement node then
      setItersect (itersectStorage st ∖ {[nodeKey node]})
        (itersectObserved st ∖ {[nodeKey node]}) st
    else st in
  match nodeStorage st1 !! nodeKey node with
  | Some nodeData =>
      Ok () (setNodeStorage (delete (nodeKey node) (nodeStorage st1))
               (setNodeValues
                  (writeNodeValue (nodeKey node) (originalText nodeData)
                     (nodeValue st1)) st1))
  | None => Ok () st1
  end.

Definition deleteNode (t : DomTree) (onlyTarget : bool) : M State () :=
  (if isElement (self t) && negb onlyTarget
   then handleTree deleteNodeOnlyTarget t
   else ret ()) ;>>
  deleteNodeOnlyTarget (self t).

Definition updateNode (node : Node) : M State () := λ st,
  match nodeStorage st !! nodeKey node with
  | Some nodeData =>
      translateNode node
        (setNodeStorage
           (<[nodeKey node := withUpdateId (updateId nodeData + 1) nodeData]>
              (nodeStorage st)) st)
  | None => Ok () st
  end.

Definition getNodeData (node : Node) (st : State) : option string :=
  match nodeStorage st !! nodeKey node with
  | None => None
  | Some nodeData => Some (originalText nodeData)
  end.

(** The events of [XMutationObserver] and the handlers [observe]
    registers for them. *)
Inductive MutationEvent :=
| ElementAdded (target : DomTree)
| ElementRemoved (target : DomTree)
| CharacterData (target : Node)
| ChangeAttribute (target : DomTree) (attributeName : option string).

Definition getNamedItem (name : string) (attrs : list Node) : option Node :=
  List.find (λ a, bool_decide (attrName a = name)) attrs.

Definition handleMutation (ev : MutationEvent) : M State () :=
  match ev with
  | ElementAdded target => addNode target
  | ElementRemoved target => deleteNode target false
  | CharacterData target => updateNode target
  | ChangeAttribute target attributeName =>
      match attributeName with
      | None => ret ()
      | Some name =>
          if negb (isElement (self target)) then ret ()
          else
            match getNamedItem name (attributes target) with
            | None => ret ()
            | Some attribute => λ st,
                if negb (bool_decide (is_Some (nodeStorage st !! nodeKey attribute)))
                then addNodeUnit attribute st
                else updateNode attribute st
            end
      end
  end.

Definition observe (t : DomTree) : M State () := λ st,
  let node := self t in
  if bool_decide (nodeKey node ∈ observedNodesStorage st)
  then Throw "Node already under observe" st
  else
    addNode t
      (setObserved ({[nodeKey node]} ∪ observedNodesStorage st)
         ({[nodeKey node]} ∪ mutationObserved st) st).

Definition unobserve (t : DomTree) : M State () := λ st,
  let node := self t in
  if negb (bool_decide (nodeKey node ∈ observedNodesStorage st))
  then Throw "Node is not under observe" st
  else
    (deleteNode t false ;>>
     modify (λ st', setObserved (observedNodesStorage st' ∖ {[nodeKey node]})
                      (mutationObserved st' ∖ {[nodeKey node]}) st')) st.

End Engine.

(** *** The vocabulary of the statements *)

(** The nodes [handleTree] passes to its callback, in order. *)
Fixpoint treeUnits (t : DomTree) : list Node :=
  match t with
  | TNode node shadow attrs children =>
      node ::
      (if isElement node then
         match shadow with
         | Some roots =>
             (fix shadowChildren (l : list DomTree) : list Node :=
                match l with
                | [] => []
                | child :: l' =>
                    (if isElement (self child) then treeUnits child else [])
                    ++ shadowChildren l'
                end) roots
         | None => []
         end ++ attrs
       else []) ++
      (fix walk (l : list DomTree) : list Node :=
         match l with
         | [] => []
         | child :: l' => treeUnits child ++ walk l'
         end) children
  end.

(** [a] is an element whose tag is in the ignore-set. *)
Definition ignoredElement (config : InnerConfig) (a : Node) : Prop :=
  isElement a = true ∧ localName a ∈ ignoredTags config.

(** Neither [e] nor any of its ancestors is an ignored element. *)
Definition noIgnoredAncestor (config : InnerConfig) (e : Node) : Prop :=
  ∀ a, a ∈ e :: ancestors e → ¬ ignoredElement config a.

(** The state after a commit: what [onTranslated] writes when the
    record [d] still matches the request. *)
Definition committed (req : Request) (text : string) (d : NodeData) (st : State)
  : State :=
  let k := nodeKey (reqNode req) in
  setNodeValues (writeNodeValue k text (nodeValue st))
    (setNodeStorage
       (<[k := mkNodeData (id d) (updateId d) (updateId d + 1)
                 (default "" (nodeValue st !! k)) (priority d)]>
          (nodeStorage st)) st).

(** The state [handleNode] leaves when it registers [node], whose
    value is [value]. *)
Definition registered (env : Env) (node : Node) (value : string) (st : State)
  : State :=
  setTranslateCalls
    (translateCalls st ++
       [mkRequest node (idCounter st) 1 value (getNodeScore env node)])
    (setIdCounter (idCounter st + 1)
       (setNodeStorage
          (<[nodeKey node := mkNodeData (idCounter st) 1 0 "" (getNodeScore env node)]>
             (nodeStorage st)) st)).

(** [addNode] on a node that is not an element is deferred to the
    viewport gate under this condition. *)
Definition deferred (config : InnerConfig) (env : Env) (node : Node) : Prop :=
  lazyTranslate config = true ∧
  isAttachedToDOM node = true ∧
  ∃ observable, observableNode node = Some observable ∧
                isIntersectableNode env observable = true.

(** [c] is a direct child of [target] that is not an element and
    passes the eligibility filter. *)
Definition eligibleChild (config : InnerConfig) (target : DomTree) (n : Node) : Prop :=
  ∃ c, c ∈ childNodes target ∧ n = self c ∧
       isElement n = false ∧ isTranslatableNode config n = true.

(** What [intersectNode] has done, from [st0] to [st]: it wrote no
    node value and no gate; every record it found is still there; every
    record and every call of [translateCallback] it added is for an
    eligible direct child. *)
Definition fannedOut (config : InnerConfig) (target : DomTree) (st0 st : State)
  : Prop :=
  nodeValue st = nodeValue st0 ∧
  itersectStorage st = itersectStorage st0 ∧
  itersectObserved st = itersectObserved st0 ∧
  (∀ k d, nodeStorage st0 !! k = Some d → nodeStorage st !! k = Some d) ∧
  (∀ k d, nodeStorage st !! k = Some d →
          nodeStorage st0 !! k = Some d ∨
          ∃ n, eligibleChild config target n ∧ k = nodeKey n) ∧
  (∃ new, translateCalls st = translateCalls st0 ++ new ∧
          ∀ q, q ∈ new → eligibleChild config target (reqNode q)).

(** From [st0] to [st], records were only added, with identities taken
    from the counter; node values and watches were not written. *)
Definition grows (st0 st : State) : Prop :=
  idCounter st0 ≤ idCounter st ∧
  nodeValue st = nodeValue st0 ∧
  observedNodesStorage st = observedNodesStorage st0 ∧
  mutationObserved st = mutationObserved st0 ∧
  (∀ k d, nodeStorage st0 !! k = Some d → nodeStorage st !! k = Some d) ∧
  (∀ k d, nodeStorage st !! k = Some d →
          nodeStorage st0 !! k = Some d ∨ idCounter st0 ≤ id d < idCounter st).

(** Every identity in the store was taken from the counter. *)
Definition idsBelowCounter (st : State) : Prop :=
  ∀ k d, nodeStorage st !! k = Some d → id d < idCounter st.

(** The value [deleteNode] leaves in a node: the stored [originalText]
    when the node has a record (and a value), its value otherwise. *)
Definition restoredValue (st : State) (k : Key) : option string :=
  match nodeStorage st !! k with
  | Some d => (λ _, originalText d) <$> nodeValue st !! k
  | None => nodeValue st !! k
  end.

(** *** What can happen to a translator *)

(** The calls a [NodesTranslator] receives: [observe] and [unobserve]
    from its owner, the events of the mutation watch, the entries of
    the intersection observer, the settlement of a call of
    [translateCallback]; besides, the page writes the value of a node
    that is not an element, or makes such a node (the report of the
    write comes later, as a mutation event). *)
Inductive Event :=
| Observe (root : DomTree)
| Unobserve (root : DomTree)
| Mutation (ev : MutationEvent)
| Intersection (entries : list (DomTree * bool))
| Settlement (req : Request) (outcome : Settled string)
| PageWrite (node : Node) (text : string).

Definition step (config : InnerConfig) (env : Env) (e : Event) (st : State) : State :=
  match e with
  | Observe root => stateOf (observe config env root st)
  | Unobserve root => stateOf (unobserve root st)
  | Mutation ev => stateOf (handleMutation config env ev st)
  | Intersection entries => stateOf (onIntersection config env entries st)
  | Settlement req outcome => (settleTranslate req outcome st).2
  | PageWrite node text =>
      if isElement node then st
      else setNodeValues (<[nodeKey node := text]> (nodeValue st)) st
  end.

(** A new [NodesTranslator] on a page whose nodes have the values
    [values]. *)
Definition created (values : gmap Key string) : State :=
  mkState values 0 ∅ ∅ ∅ ∅ ∅ [].

(** The states a translator gets to. *)
Definition reachable (config : InnerConfig) (env : Env) (values : gmap Key string)
  : State → Prop :=
  rtc (λ st st', ∃ e, st' = step config env e st) (created values).

(** No two units carry the same identity. *)
Definition idsUnique (st : State) : Prop :=
  ∀ k1 k2 d1 d2,
    nodeStorage st !! k1 = Some d1 → nodeStorage st !! k2 = Some d2 →
    id d1 = id d2 → k1 = k2.

(** [updateId] starts at one, and [translateContext] is never more than
    one ahead of it. *)
Definition versionsBounded (st : State) : Prop :=
  ∀ k d, nodeStorage st !! k = Some d →
         1 ≤ updateId d ∧ translateContext d ≤ updateId d + 1 ∧ priority d ≤ 4.

(** The bookkeeping of the gate and of the watches agrees with the
    observers: the intersection observer has exactly the registered
    elements as targets, and exactly the recorded roots are watched. *)
Definition observersAgree (st : State) : Prop :=
  itersectObserved st = itersectStorage st ∧
  mutationObserved st = observedNodesStorage st.

(** Every call of [translateCallback] carried an identity that was
    handed out and a version from one up. *)
Definition callsIssued (st : State) : Prop :=
  ∀ q, q ∈ translateCalls st → reqNodeId q < idCounter st ∧ 1 ≤ reqNodeContext q.

(** The invariants of a translator, together. *)
Definition sound (st : State) : Prop :=
  idsBelowCounter st ∧ idsUnique st ∧ versionsBounded st ∧
  observersAgree st ∧ callsIssued st.

(** From [st0] to [st] records and calls of [translateCallback] were
    only added, and only for nodes of [units] that are not elements,
    pass the eligibility filter and have a value of more than white
    space; the values of the nodes were not written. *)
Definition tracksOnly (config : InnerConfig) (env : Env) (units : list Node)
  (st0 st : State) : Prop :=
  nodeValue st = nodeValue st0 ∧
  (∀ k d, nodeStorage st0 !! k = Some d → nodeStorage st !! k = Some d) ∧
  (∀ k d, nodeStorage st !! k = Some d →
          nodeStorage st0 !! k = Some d ∨
          ∃ n v, n ∈ units ∧ k = nodeKey n ∧ isElement n = false ∧
                 isTranslatableNode config n = true ∧
                 nodeValue st0 !! k = Some v ∧ JsString.allWhiteSpace v = false ∧
                 updateId d = 1 ∧ translateContext d = 0 ∧ originalText d = "" ∧
                 priority d = getNodeScore env n) ∧
  (∃ new, translateCalls st = translateCalls st0 ++ new ∧
          ∀ q, q ∈ new →
               reqNode q ∈ units ∧ isElement (reqNode q) = false ∧
               isTranslatableNode config (reqNode q) = true ∧
               nodeValue st0 !! nodeKey (reqNode q) = Some (reqText q) ∧
               reqNodeContext q = 1).

(** *** A page to run the translator on

    [<html><body><div title="Hola"><script>x</script>Hello</div></body></html>],
    with ignored tags [script] and [style] and translatable attribute
    [title]. *)

Module Page.

Definition html : Node := mkNode 1 (ElementType "html" "HTML") None None.
Definition body : Node := mkNode 2 (ElementType "body" "BODY") (Some html) None.
Definition div : Node := mkNode 3 (ElementType "div" "DIV") (Some body) None.
Definition title : Node := mkNode 4 (AttrType "title") None (Some div).
Definition script : Node := mkNode 5 (ElementType "script" "SCRIPT") (Some div) None.
Definition code : Node := mkNode 6 TextType (Some script) None.
Definition hello : Node := mkNode 7 TextType (Some div) None.
(** a text node that has no parent *)
Definition loose : Node := mkNode 8 TextType None None.

Definition leaf (n : Node) : DomTree := TNode n None [] [].

Definition divTree : DomTree :=
  TNode div None [title] [TNode script None [] [leaf code]; leaf hello].

Definition htmlTree : DomTree :=
  TNode html None [] [TNode body None [] [divTree]].

Definition env : Env := mkEnv 2 (λ _, true).

Definition eager : InnerConfig :=
  innerConfig (Some (mkConfig (Some ["script"; "style"]) (Some ["title"]) (Some false))).

Definition lazy : InnerConfig :=
  innerConfig (Some (mkConfig (Some ["script"; "style"]) (Some ["title"]) None)).

Definition values : gmap Key string :=
  list_to_map [(4, "Hola"); (6, "x"); (7, "Hello"); (8, "Hello")]%positive.

Definition initial : State := mkState values 0 ∅ ∅ ∅ ∅ ∅ [].

(** [hello] registered by an immediate add. *)
Definition tracked : State := stateOf (addNode eager env (leaf hello) initial).

(** The call of [translateCallback] made for [hello] in [tracked]. *)
Definition helloRequest : Request := mkRequest hello 0 1 "Hello" 4.

(** [hello] translated: the call resolved with [Bonjour] and the update
    caused by the write was handled. *)
Definition translated : State :=
  stateOf (updateNode hello (settleTranslate helloRequest (Fulfilled "Bonjour") tracked).2).

End Page.

End NodesTranslator.

(** ** The session: [PageTranslator] and its epoch guard *)

Module PageTranslator.

(** [Symbol()] returns a value different from every symbol made
    before: the n-th symbol made is [n]. *)
Definition Symbol := N.

(** The objects [{resolved, rejected, pending}] live in a heap: [run]
    keeps a reference to the object that is current when it is called,
    [stop] makes a new object. *)
Definition Ref := positive.
Bind Scope positive_scope with Ref.

Record PageTranslateState := mkCounters {
  resolved : Z;
  rejected : Z;
  pending : Z
}.

Record State := mkState {
  (** the number of symbols made so far *)
  symbols : N;
  translateContext : Symbol;
  (** [this.pageTranslator !== null] *)
  pageTranslator : bool;
  pageTranslateDirection : option (string * string);
  objects : gmap Ref PageTranslateState;
  translateState : Ref;
  (** [this.config.originalTextPopup] *)
  originalTextPopup : bool;
  (** the [mouseover] listener is installed *)
  listening : bool;
  (** the calls of [translateStateUpdate] *)
  stateUpdates : N
}.

(** What the function [translateText] made by [run] closes over. *)
Record Closure := mkClosure {
  localContext : Symbol;
  localTranslateState : Ref;
  direction : string * string
}.

(** A new [PageTranslator]. *)
Definition create (popup : bool) : State :=
  mkState 1 0 false None {[1%positive := mkCounters 0 0 0]} 1 popup false 0.

Definition translateStateUpdate (st : State) : State :=
  mkState (symbols st) (translateContext st) (pageTranslator st)
    (pageTranslateDirection st) (objects st) (translateState st)
    (originalTextPopup st) (listening st) (stateUpdates st + 1).

(** [object.field++] and [object.field--] on an object of the heap. *)
Definition updateObject (r : Ref) (f : PageTranslateState → PageTranslateState)
  (st : State) : State :=
  mkState (symbols st) (translateContext st) (pageTranslator st)
    (pageTranslateDirection st) (alter f r (objects st)) (translateState st)
    (originalTextPopup st) (listening st) (stateUpdates st).

Definition incrPending (c : PageTranslateState) := mkCounters (resolved c) (rejected c) (pending c + 1)%Z.
Definition decrPending (c : PageTranslateState) := mkCounters (resolved c) (rejected c) (pending c - 1)%Z.
Definition incrResolved (c : PageTranslateState) := mkCounters (resolved c + 1)%Z (rejected c) (pending c).
Definition incrRejected (c : PageTranslateState) := mkCounters (resolved c) (rejected c + 1)%Z (pending c).

(** [run(from, to)], up to the call of [observe]; the result is the
    function [translateText] given to the new [NodesTranslator]. *)
Definition run (from to : string) : M State Closure := λ st,
  if pageTranslator st then Throw "Page already translated" st
  else
    let localContext := symbols st in
    let localTranslateState := translateState st in
    Ok (mkClosure localContext localTranslateState (from, to))
       (mkState (symbols st + 1) localContext true (Some (from, to))
          (objects st) (translateState st) (originalTextPopup st)
          (if originalTextPopup st then true else listening st)
          (stateUpdates st)).

(** A reference that is not in the heap. *)
Definition freshRef (st : State) : Ref :=
  (map_fold (λ r _ acc, Pos.max r acc) 1 (objects st) + 1)%positive.

Definition stop : M State () := λ st,
  if negb (pageTranslator st) then Throw "Page is not translated" st
  else
    let object := freshRef st in
    Ok () (translateStateUpdate
             (mkState (symbols st + 1) (symbols st) false None
                (<[object := mkCounters 0 0 0]> (objects st)) object
                (originalTextPopup st)
                (if originalTextPopup st then false else listening st)
                (stateUpdates st))).

(** The body of [translateText] up to the call of [translate]; a throw
    is the rejection of the promise the [async] function returns. *)
Definition translateText (c : Closure) : M State () := λ st,
  if negb (bool_decide (localContext c = translateContext st))
  then Throw "Outdated context" st
  else Ok () (translateStateUpdate (updateObject (localTranslateState c) incrPending st)).

(** The handlers [translateText] chains on the promise of [translate]. *)
Definition onResolved (c : Closure) (translatedText : string) (st : State)
  : string * State :=
  (translatedText,
   if bool_decide (localContext c = translateContext st)
   then updateObject (localTranslateState c) incrResolved st
   else st).

Definition onRejected (c : Closure) (reason : string) (st : State)
  : string * State :=
  (reason,
   if bool_decide (localContext c = translateContext st)
   then updateObject (localTranslateState c) incrRejected st
   else st).

Definition onFinally (c : Closure) (st : State) : State :=
  if bool_decide (localContext c = translateContext st)
  then translateStateUpdate (updateObject (localTranslateState c) decrPending st)
  else st.

(** The promise [translateText] returned, once the promise of
    [translate] has settled with [outcome]. *)
Definition settle (c : Closure) (outcome : Settled string) (st : State)
  : Settled string * State :=
  let '(p1, st1) := promiseThen outcome (onResolved c) st in
  let '(p2, st2) := promiseCatchRethrow p1 (onRejected c) st1 in
  promiseFinally p2 (onFinally c) st2.

Definition updateConfig (popup : bool) (st : State) : State :=
  mkState (symbols st) (translateContext st) (pageTranslator st)
    (pageTranslateDirection st) (objects st) (translateState st)
    popup (listening st) (stateUpdates st).

(** What can happen to a [PageTranslator], one event at a time. *)
Inductive Step : State → State → Prop :=
| StepRun from to c st st' :
    run from to st = Ok c st' → Step st st'
| StepStop st st' :
    stop st = Ok () st' → Step st st'
| StepTranslateText c st st' :
    translateText c st = Ok () st' → Step st st'
| StepSettle c outcome st :
    Step st (settle c outcome st).2
| StepUpdateConfig popup st :
    Step st (updateConfig popup st).

(** [isRun()], [getStatus()] and [getTranslateDirection()]. *)
Definition isRun (st : State) : bool := pageTranslator st.

Definition getStatus (st : State) : option PageTranslateState :=
  objects st !! translateState st.

Definition getTranslateDirection (st : State) : option (string * string) :=
  pageTranslateDirection st.

(** The token [t] was made and is not the current one. *)
Definition outdated (t : Symbol) (st : State) : Prop :=
  t < symbols st ∧ t ≠ translateContext st.

(** Every token in use was made: the current token is below the
    number of symbols made. *)
Definition tokenMade (st : State) : Prop := translateContext st < symbols st.

(** The token of [c] was made, and while it is the current one the
    session is the one [c] was made in. *)
Definition liveIn (c : Closure) (st : State) : Prop :=
  localContext c < symbols st ∧
  (localContext c = translateContext st →
   translateState st = localTranslateState c ∧
   pageTranslator st = true ∧
   pageTranslateDirection st = Some (direction c)).

(** A session: run, one call, stop. *)
Definition started : State := stateOf (run "en" "fr" (create false)).
Definition session : Closure := mkClosure 1 1 ("en", "fr").
Definition called : State := stateOf (translateText session started).
Definition stopped : State := stateOf (stop called).

End PageTranslator.

(** ** The throttle of the status reports: [translateStateUpdate] *)

Module StatusThrottle.

(** Times are the integers [new Date().getTime()] returns.  A pending
    timer is the time from which its callback may run: the time of the
    [setTimeout] call plus the delay. *)
Record State := mkState {
  lastSentUpdate : Z;
  timer : option Z;
  (** the times at which a report was sent, newest first *)
  sent : list Z
}.

Definition updateTimeout : Z := 100.

Definition create : State := mkState 0 None [].

(** [sendUpdate], with the time its own clock reading returns. *)
Definition sendUpdate (sendTime : Z) (st : State) : State :=
  mkState sendTime (timer st) (sendTime :: sent st).

(** [translateStateUpdate]: [now] is its clock reading, [sendTime] the
    one of [sendUpdate] when it is called at once. *)
Definition translateStateUpdate (now sendTime : Z) (st : State) : State :=
  match timer st with
  | Some _ => st
  | None =>
      let idleTime := (now - lastSentUpdate st)%Z in
      if (updateTimeout <=? idleTime)%Z then sendUpdate sendTime st
      else mkState (lastSentUpdate st)
             (Some (now + (updateTimeout - idleTime))%Z) (sent st)
  end.

(** The callback given to [setTimeout]. *)
Definition timerFires (sendTime : Z) (st : State) : State :=
  sendUpdate sendTime (mkState (lastSentUpdate st) None (sent st)).

(** One event, with the clock before and after: the clock never goes
    back, and a timer does not run before its time. *)
Inductive Step : Z * State → Z * State → Prop :=
| StepCall clock st now sendTime :
    (clock ≤ now)%Z → (now ≤ sendTime)%Z →
    Step (clock, st) (sendTime, translateStateUpdate now sendTime st)
| StepFire clock st due sendTime :
    timer st = Some due → (clock ≤ sendTime)%Z → (due ≤ sendTime)%Z →
    Step (clock, st) (sendTime, timerFires sendTime st).

(** Consecutive times of a list, newest first, are at least
    [updateTimeout] apart. *)
Fixpoint spaced (l : list Z) : Prop :=
  match l with
  | a :: (b :: _) as rest => (b + updateTimeout ≤ a)%Z ∧ spaced rest
  | _ => True
  end.

(** What the throttle keeps, with the clock: the last report is not in
    the future and is the newest time recorded; the reports are spaced;
    a pending timer is due [updateTimeout] after the last report. *)
Definition paced (clock : Z) (st : State) : Prop :=
  (lastSentUpdate st ≤ clock)%Z ∧
  spaced (sent st) ∧
  match sent st with
  | a :: _ => a = lastSentUpdate st
  | [] => lastSentUpdate st = 0%Z
  end ∧
  (∀ due, timer st = Some due → due = (lastSentUpdate st + updateTimeout)%Z).

(** Two calls 10 ms apart after a long idle time, a third one, then
    the timer. *)
Definition burst : State :=
  timerFires 1100
    (translateStateUpdate 1050 1050
       (translateStateUpdate 1010 1010
          (translateStateUpdate 1000 1000 create))).

End StatusThrottle.

(** ** The text of the popup: [showOriginalTextHandler] *)

Module OriginalText.

Definition isText (n : Node) : bool :=
  match nodeType n with TextType => true | _ => false end.

Definition blockTypes : list string :=
  ["block"; "flex"; "grid"; "table"; "table-row"; "list-item"].

Section Handler.

(** [this.pageTranslator] with the state of the translator when it is
    not [null], and [getComputedStyle(element).display]. *)
Context (pageTranslator : option NodesTranslator.State) (display : Key → string).

Definition isBlockElement (element : Node) : bool :=
  bool_decide (display (nodeKey element) ∈ blockTypes).

(** [this.pageTranslator?.getNodeData(node)?.originalText ?? ''] *)
Definition originalTextOf (node : Node) : string :=
  default "" (pageTranslator ≫= NodesTranslator.getNodeData node).

Fixpoint getTextOfElement (element : DomTree) : string :=
  match element with
  | TNode target _ _ children =>
      if isText target then originalTextOf target
      else if isElement target then
        (fix loop (l : list DomTree) : string :=
           match l with
           | [] => ""
           | node :: l' =>
               if isText (self node)
               then String.append (originalTextOf (self node)) (loop l')
               else if isElement (self node) && negb (isBlockElement (self node))
               then String.append (getTextOfElement node) (loop l')
               else ""
           end) children
      else ""
  end.

(** What the handler leaves mounted: the popup with the text, or
    nothing when the text is empty. *)
Definition showOriginalTextHandler (target : DomTree) : option string :=
  let text := getTextOfElement target in
  if bool_decide (text = "") then None else Some text.

End Handler.

(** The loop of [getTextOfElement] over the children stops at the
    first child that is neither a text node nor an element that is not
    a block. *)
Definition stopsLoop (display : Key → string) (node : Node) : Prop :=
  isText node = false ∧
  (isElement node = false ∨ isBlockElement display node = true).

End OriginalText.

(** * Properties *)

(** ** Strings *)

Module JsStringFacts.

Import JsString.

Lemma trimEnd_nonempty c s :
  isWhiteSpace c = false → trimEnd (String c s) ≠ EmptyString.
Proof.
  intros Hc. simpl. destruct (trimEnd s); [rewrite Hc|]; discriminate.
Qed.

(** The test of the source, [s.trim().length == 0], holds exactly of
    the strings made of white space only (the empty one included). *)
Lemma trim_length_0 s :
  String.length (trim s) = 0%nat ↔ allWhiteSpace s = true.
Proof.
  unfold trim. induction s as [|c s IH]; simpl; [done|].
  destruct (isWhiteSpace c) eqn:Hc; simpl; [exact IH|].
  split; [|discriminate]. intros Hlen.
  pose proof (trimEnd_nonempty c s Hc) as Hne. simpl in Hne.
  destruct (trimEnd s); [rewrite Hc in *|]; simpl in Hlen; discriminate.
Qed.

End JsStringFacts.

(** ** Loops *)

Lemma bind_unfold {S A B} (m : M S A) (k : A → M S B) st :
  bind m k st = match m st with Ok a st' => k a st' | Throw msg st' => Throw msg st' end.
Proof. done. Qed.

Lemma forEach_app {S A} (f : A → M S ()) l1 l2 st :
  forEach f (l1 ++ l2) st = (forEach f l1 ;>> forEach f l2) st.
Proof.
  revert st. induction l1 as [|x l1 IH]; intros st; simpl.
  - done.
  - unfold bind. destruct (f x st) as [[] st'|msg st']; [|done].
    rewrite IH. done.
Qed.

(** A property of states that every call of [f] keeps is kept by the
    whole loop, also when the loop is left by a throw. *)
Lemma forEach_preserves {S A} (P : S → Prop) (f : A → M S ()) l :
  (∀ x st, x ∈ l → P st → P (stateOf (f x st))) →
  ∀ st, P st → P (stateOf (forEach f l st)).
Proof.
  induction l as [|x l IH]; intros Hf st HP; simpl; [done|].
  unfold bind. pose proof (Hf x st ltac:(left) HP) as H1.
  destruct (f x st) as [[] st'|msg st']; simpl in *; [|done].
  apply IH; [|done]. intros y st0 Hy. apply Hf. by right.
Qed.

(** A loop whose body never throws does not throw. *)
Lemma forEach_isOk {S A} (f : A → M S ()) l :
  (∀ x st, x ∈ l → isOk (f x st) = true) →
  ∀ st, isOk (forEach f l st) = true.
Proof.
  induction l as [|x l IH]; intros Hf st; simpl; [done|].
  unfold bind. pose proof (Hf x st ltac:(left)) as H1.
  destruct (f x st) as [[] st'|msg st']; simpl in *; [|done].
  apply IH. intros y st0 Hy. apply Hf. by right.
Qed.

(** ** The node translator *)

Module NodesTranslatorFacts.

Import NodesTranslator.

(** *** Induction on nodes and on trees *)

Lemma Node_parent_ind (P : Node → Prop) :
  (∀ k ty o, P (mkNode k ty None o)) →
  (∀ k ty p o, P p → P (mkNode k ty (Some p) o)) →
  ∀ n, P n.
Proof.
  intros Hroot Hchild. fix IH 1. intros [k ty [p|] o].
  - apply Hchild, IH.
  - apply Hroot.
Qed.

Lemma DomTree_forall_ind (P : DomTree → Prop) :
  (∀ node shadow attrs children,
      (∀ roots, shadow = Some roots → Forall P roots) →
      Forall P children →
      P (TNode node shadow attrs children)) →
  ∀ t, P t.
Proof.
  intros Hnode. fix IH 1. intros [node [roots|] attrs children]; apply Hnode.
  - intros roots' [= <-].
    induction roots as [|r roots IHr]; constructor; [apply IH|exact IHr].
  - induction children as [|c children IHc]; constructor; [apply IH|exact IHc].
  - intros roots' [=].
  - induction children as [|c children IHc]; constructor; [apply IH|exact IHc].
Qed.

(** [handleTree] is the loop of its callback over [treeUnits]. *)
Lemma handleTree_forEach callback t :
  ∀ st, handleTree callback t st = forEach callback (treeUnits t) st.
Proof.
  induction t as [node shadow attrs children IHs IHc] using DomTree_forall_ind.
  intros st. cbn [handleTree treeUnits forEach].
  rewrite !bind_unfold.
  destruct (callback node st) as [[] st1|msg st1]; [|done].
  rewrite forEach_app. rewrite !bind_unfold.
  match goal with
  | |- match ?mid st1 with _ => _ end = match forEach callback ?units st1 with _ => _ end =>
      assert (Hmid : ∀ st, mid st = forEach callback units st)
  end.
  { destruct (isElement node); [|done].
    intros st0. rewrite forEach_app. rewrite !bind_unfold.
    destruct shadow as [roots|]; [|done].
    specialize (IHs roots eq_refl).
    match goal with
    | |- match ?a st0 with _ => _ end = match ?b st0 with _ => _ end =>
        assert (Hroots : ∀ st, a st = b st)
    end.
    { clear -IHs. induction roots as [|r roots IH]; intros st; [done|].
      inversion IHs as [|? ? Hr Hrest]; subst.
      rewrite forEach_app. rewrite !bind_unfold.
      destruct (isElement (self r)).
      - rewrite Hr. destruct (forEach callback (treeUnits r) st) as [[] ?|]; [|done].
        by apply IH.
      - simpl. by apply IH. }
    by rewrite Hroots. }
  rewrite Hmid.
  match goal with
  | |- match ?m with _ => _ end = _ => destruct m as [[] st2|msg st2]; [|done]
  end.
  clear -IHc. revert st2.
  induction children as [|c children IH]; intros st; [done|].
  inversion IHc as [|? ? Hc Hrest]; subst.
  rewrite forEach_app. rewrite !bind_unfold. rewrite Hc.
  destruct (forEach callback (treeUnits c) st) as [[] ?|]; [|done].
  by apply IH.
Qed.

(** *** The eligibility filter *)

Lemma searchParentLoop_None callback n :
  searchParentLoop callback n = None ↔ ∀ a, a ∈ ancestors n → callback a = false.
Proof.
  induction n as [k ty o|k ty p o IH] using Node_parent_ind; simpl.
  - split; [intros _ a Ha; by apply elem_of_nil in Ha|done].
  - destruct (callback p) eqn:Hp.
    + split; [done|]. intros H. specialize (H p ltac:(left)). congruence.
    + rewrite IH. split.
      * intros H a [->|Ha]%elem_of_cons; auto.
      * intros H a Ha. apply H. by right.
Qed.

Lemma searchParent_inclusive_None callback n :
  searchParent n callback true = None ↔
  ∀ a, a ∈ n :: ancestors n → callback a = false.
Proof.
  unfold searchParent. simpl. destruct (callback n) eqn:Hn.
  - split; [done|]. intros H. specialize (H n ltac:(left)). congruence.
  - rewrite searchParentLoop_None. split.
    + intros H a [->|Ha]%elem_of_cons; auto.
    + intros H a Ha. apply H. by right.
Qed.

Lemma isIgnoredElement_false config a :
  isIgnoredElement config a = false ↔ ¬ ignoredElement config a.
Proof.
  unfold isIgnoredElement, ignoredElement.
  destruct (isElement a); simpl.
  - rewrite bool_decide_eq_false. naive_solver.
  - naive_solver.
Qed.

Lemma checkParents_true config e :
  (match searchParent e (isIgnoredElement config) true with
   | Some _ => false
   | None => true
   end = true) ↔ noIgnoredAncestor config e.
Proof.
  unfold noIgnoredAncestor.
  destruct (searchParent e (isIgnoredElement config) true) eqn:Hs.
  - split; [done|]. intros H.
    assert (searchParent e (isIgnoredElement config) true = None) as Hn; [|congruence].
    apply searchParent_inclusive_None. intros a Ha.
    by apply isIgnoredElement_false, H.
  - split; [|done]. intros _ a Ha.
    apply isIgnoredElement_false.
    by apply (proj1 (searchParent_inclusive_None _ _) Hs).
Qed.

(** C7.  The eligibility predicate [isTranslatableNode], for every
    unit.  An element is eligible exactly when its tag is not in the
    ignore-set and neither it nor any of its ancestors is an ignored
    element.  An attribute is eligible exactly when its name is in the
    allow-set and its owner element, when it has one, has no ignored
    element among itself and its ancestors.  A text node is eligible
    exactly when its parent element, when it has one, has no ignored
    element among itself and its ancestors.  The predicate is a function
    of the configuration and the node alone: it reads and writes no
    state. *)
Theorem isTranslatableNode_rules (config : InnerConfig) (n : Node) :
  match nodeType n with
  | ElementType tag _ =>
      (isTranslatableNode config n = true ↔
       (tag ∉ ignoredTags config) ∧ noIgnoredAncestor config n)
  | AttrType name =>
      (isTranslatableNode config n = true ↔
       name ∈ translatableAttributes config ∧
       (∀ owner, ownerElement n = Some owner → noIgnoredAncestor config owner))
  | TextType =>
      (isTranslatableNode config n = true ↔
       (∀ parent, parentElement n = Some parent → noIgnoredAncestor config parent))
  | OtherType => isTranslatableNode config n = false
  end.
Proof.
  unfold isTranslatableNode.
  destruct (nodeType n) as [tag upper|name| |] eqn:Hty; [| | |done].
  - case_bool_decide as Htag.
    + split; [done|]. intros [? _]. done.
    + rewrite checkParents_true. naive_solver.
  - case_bool_decide as Hname; simpl.
    + destruct (ownerElement n) as [owner|].
      * rewrite checkParents_true. naive_solver.
      * naive_solver.
    + split; [done|]. intros [? _]. done.
  - destruct (parentElement n) as [parent|].
    + rewrite checkParents_true. naive_solver.
    + naive_solver.
Qed.

(** *** Issuing and committing a translation *)

Lemma writeNodeValue_lookup k text v content :
  v !! k = Some content → writeNodeValue k text v !! k = Some text.
Proof. intros H. unfold writeNodeValue. rewrite H. apply lookup_insert_eq. Qed.

Lemma writeNodeValue_lookup_ne k k' text v :
  k ≠ k' → writeNodeValue k text v !! k' = v !! k'.
Proof.
  intros H. unfold writeNodeValue. destruct (v !! k); [|done].
  by apply lookup_insert_ne.
Qed.

Lemma writeNodeValue_fmap k text v :
  writeNodeValue k text v !! k = (λ _, text) <$> v !! k.
Proof.
  unfold writeNodeValue. destruct (v !! k) eqn:H; simpl.
  - apply lookup_insert_eq.
  - by rewrite H.
Qed.

(** [translateNode] on a registered node does not throw; it calls
    [translateCallback] exactly when the node has a value and
    [updateId] is above [translateContext]. *)
Lemma translateNode_registered node st d :
  nodeStorage st !! nodeKey node = Some d →
  translateNode node st =
  Ok () (match nodeValue st !! nodeKey node with
         | Some text =>
             if updateId d <=? translateContext d then st
             else setTranslateCalls
                    (translateCalls st ++
                       [mkRequest node (id d) (updateId d) text (priority d)]) st
         | None => st
         end).
Proof.
  intros H. unfold translateNode. rewrite H.
  destruct (nodeValue st !! nodeKey node); [|done].
  by destruct (updateId d <=? translateContext d).
Qed.

(** [updateNode] on a registered node raises [updateId] by one and
    calls [translateCallback] exactly when the new [updateId] is above
    [translateContext]. *)
Lemma updateNode_tracked node st d text :
  nodeStorage st !! nodeKey node = Some d →
  nodeValue st !! nodeKey node = Some text →
  updateNode node st =
  Ok () (let st' :=
           setNodeStorage
             (<[nodeKey node := withUpdateId (updateId d + 1) d]> (nodeStorage st))
             st in
         if updateId d + 1 <=? translateContext d then st'
         else setTranslateCalls
                (translateCalls st ++
                   [mkRequest node (id d) (updateId d + 1) text (priority d)]) st').
Proof.
  intros Hd Hv. unfold updateNode. rewrite Hd.
  erewrite translateNode_registered by (cbn; apply lookup_insert_eq).
  cbn -[N.leb N.add]. rewrite Hv. done.
Qed.

(** The continuation commits when the record still carries the
    identity and the version the request captured. *)
Lemma settleTranslate_current req text st d :
  nodeStorage st !! nodeKey (reqNode req) = Some d →
  id d = reqNodeId req →
  updateId d = reqNodeContext req →
  settleTranslate req (Fulfilled text) st =
    (Fulfilled (Some (reqNode req)), committed req text d st).
Proof.
  intros Hd Hid Hctx. unfold settleTranslate, promiseThen, onTranslated.
  by rewrite Hd, <- Hid, <- Hctx, !N.eqb_refl.
Qed.

(** A rejection passes the continuation by. *)
Lemma settleTranslate_rejected req reason st :
  settleTranslate req (Rejected reason) st = (Rejected reason, st).
Proof. done. Qed.

(** C2.  When the call of [translateCallback] made for a request
    resolves with [text], the continuation applies the result exactly
    when the node still has a record whose [id] and [updateId] are the
    ones captured by the request: then it stores the current value as
    [originalText], sets [translateContext] to [updateId + 1], writes
    [text] to the node and returns the node.  In every other case it
    returns nothing and the state, records and node values included, is
    the one it started from. *)
Theorem settleTranslate_applies_iff_current
  (req : Request) (text : string) (st : State) :
  let k := nodeKey (reqNode req) in
  (∀ d, nodeStorage st !! k = Some d →
        id d = reqNodeId req → updateId d = reqNodeContext req →
        settleTranslate req (Fulfilled text) st =
          (Fulfilled (Some (reqNode req)), committed req text d st) ∧
        nodeValue (committed req text d st) !! k
          = (λ _, text) <$> nodeValue st !! k ∧
        nodeStorage (committed req text d st) !! k
          = Some (mkNodeData (id d) (updateId d) (updateId d + 1)
                    (default "" (nodeValue st !! k)) (priority d))) ∧
  ((¬ ∃ d, nodeStorage st !! k = Some d ∧
           id d = reqNodeId req ∧ updateId d = reqNodeContext req) →
   settleTranslate req (Fulfilled text) st = (Fulfilled None, st)).
Proof.
  intros k. split.
  - intros d Hd Hid Hctx. split_and!.
    + by apply settleTranslate_current.
    + apply writeNodeValue_fmap.
    + apply lookup_insert_eq.
  - intros Hno. unfold settleTranslate, promiseThen, onTranslated. fold k. destruct (nodeStorage st !! k) as [d|] eqn:Hd; [|done].
    destruct (N.eqb_spec (reqNodeId req) (id d)) as [Hid|Hid]; [|done].
    destruct (N.eqb_spec (reqNodeContext req) (updateId d)) as [Hctx|Hctx]; [|done].
    exfalso. apply Hno. by exists d.
Qed.

(** C8.  [translateNode] on a registered unit with a value and
    [updateId] above [translateContext] calls [translateCallback] once
    and writes nothing else.  When that call rejects, the promise
    [translateNode] returned rejects with the same reason, the
    continuation does not run, [translateCallback] is not called again,
    and the record of the unit ([id], [updateId], [translateContext],
    [originalText], [priority]) and the value of the unit are the ones
    from before the attempt. *)
Theorem translate_rejection_propagates
  (node : Node) (reason : string) (st : State) (d : NodeData) (text : string) :
  let k := nodeKey node in
  nodeStorage st !! k = Some d →
  nodeValue st !! k = Some text →
  translateContext d < updateId d →
  let req := mkRequest node (id d) (updateId d) text (priority d) in
  let attempted := stateOf (translateNode node st) in
  let settled := settleTranslate req (Rejected reason) attempted in
  translateNode node st = Ok () attempted ∧
  translateCalls attempted = translateCalls st ++ [req] ∧
  settled.1 = Rejected reason ∧
  settled.2 = attempted ∧
  nodeStorage settled.2 !! k = Some d ∧
  nodeValue settled.2 !! k = Some text ∧
  nodeStorage settled.2 = nodeStorage st ∧
  nodeValue settled.2 = nodeValue st ∧
  translateCalls settled.2 = translateCalls attempted.
Proof.
  intros k Hd Hv Hlt req attempted settled. subst settled attempted.
  rewrite settleTranslate_rejected. cbn [fst snd].
  rewrite (translateNode_registered node st d Hd). fold k. rewrite Hv.
  replace (updateId d <=? translateContext d) with false
    by (symmetry; apply N.leb_gt; lia).
  cbn. done.
Qed.

(** C1.  A request captured the record of its node at version
    [V = updateId d].  When it resolves, the commit leaves
    [translateContext = V + 1] with [updateId = V] and writes the
    translated text.  The content change this write causes is one
    [updateNode]: it raises [updateId] to [V + 1], equal to
    [translateContext], and calls [translateCallback] for nothing; any
    further [translateNode] is a no-op too.  An edit of the node after
    that is another [updateNode]: it raises [updateId] to [V + 2], above
    [translateContext], and the edited text is sent for translation. *)
Theorem commit_absorbs_own_update
  (req : Request) (text : string) (st : State) (d : NodeData) (content : string) :
  let node := reqNode req in
  let k := nodeKey node in
  let V := updateId d in
  nodeStorage st !! k = Some d →
  reqNodeId req = id d →
  reqNodeContext req = V →
  nodeValue st !! k = Some content →
  let st1 := (settleTranslate req (Fulfilled text) st).2 in
  let st2 := stateOf (updateNode node st1) in
  nodeStorage st1 !! k = Some (mkNodeData (id d) V (V + 1) content (priority d)) ∧
  nodeValue st1 !! k = Some text ∧
  translateCalls st1 = translateCalls st ∧
  isOk (updateNode node st1) = true ∧
  nodeStorage st2 !! k = Some (mkNodeData (id d) (V + 1) (V + 1) content (priority d)) ∧
  nodeValue st2 !! k = Some text ∧
  translateCalls st2 = translateCalls st ∧
  translateNode node st2 = Ok () st2 ∧
  ∀ edited,
    let st3 := setNodeValues (<[k := edited]> (nodeValue st2)) st2 in
    isOk (updateNode node st3) = true ∧
    translateCalls (stateOf (updateNode node st3)) =
      translateCalls st ++ [mkRequest node (id d) (V + 2) edited (priority d)].
Proof.
  intros node k V. subst node k V. intros Hd Hid Hctx Hval.
  rewrite (settleTranslate_current req text st d Hd (eq_sym Hid) (eq_sym Hctx)).
  cbn [snd].
  set (k := nodeKey (reqNode req)) in *.
  set (V := updateId d) in *.
  set (d1 := mkNodeData (id d) V (V + 1) content (priority d)).
  assert (Hd1 : nodeStorage (committed req text d st) !! k = Some d1).
  { unfold committed; simpl. fold k. rewrite Hval. apply lookup_insert_eq. }
  assert (Hv1 : nodeValue (committed req text d st) !! k = Some text).
  { unfold committed; simpl. by eapply writeNodeValue_lookup. }
  assert (Hc1 : translateCalls (committed req text d st) = translateCalls st) by done.
  set (st1 := committed req text d st) in *. clearbody st1.
  assert (Hle : (V + 1 <=? V + 1) = true) by apply N.leb_refl.
  assert (Hgt : (V + 1 + 1 <=? V + 1) = false) by (apply N.leb_gt; lia).
  rewrite (updateNode_tracked _ _ _ _ Hd1 Hv1). subst d1. cbn -[N.leb N.add].
  rewrite Hle. cbn -[N.leb N.add]. fold k.
  set (d2 := mkNodeData (id d) (V + 1) (V + 1) content (priority d)).
  set (st2 := mkState _ _ _ _ _ _ _ _).
  assert (Hd2 : nodeStorage st2 !! k = Some d2) by apply lookup_insert_eq.
  assert (Hv2 : nodeValue st2 !! k = Some text) by exact Hv1.
  assert (Hc2 : translateCalls st2 = translateCalls st) by exact Hc1.
  clearbody st2.
  split_and!; try done.
  - apply lookup_insert_eq.
  - rewrite (translateNode_registered _ _ _ Hd2). fold k. rewrite Hv2.
    subst d2. cbn -[N.leb N.add]. by rewrite Hle.
  - intros edited. set (st3 := mkState _ _ _ _ _ _ _ _).
    assert (Hd3 : nodeStorage st3 !! k = Some d2) by apply lookup_insert_eq.
    assert (Hv3 : nodeValue st3 !! k = Some edited) by apply lookup_insert_eq.
    assert (Hc3 : translateCalls st3 = translateCalls st) by exact Hc1.
    clearbody st3.
    rewrite (updateNode_tracked _ _ _ _ Hd3 Hv3). subst d2. cbn -[N.leb N.add].
    rewrite Hgt. cbn -[N.leb N.add]. split; [done|].
    rewrite Hc3. do 3 f_equal. lia.
Qed.

(** *** Registration: [handleNode] and [addNode] *)

Lemma handleNode_skip config env node st :
  is_Some (nodeStorage st !! nodeKey node) ∨
  nodeValue st !! nodeKey node = None ∨
  (∃ v, nodeValue st !! nodeKey node = Some v ∧ JsString.allWhiteSpace v = true) ∨
  isTranslatableNode config node = false →
  handleNode config env node st = Ok () st.
Proof.
  intros H. unfold handleNode. case_bool_decide as Htracked; [done|].
  destruct (nodeValue st !! nodeKey node) as [v|] eqn:Hv; [|done].
  destruct (Nat.eqb_spec (String.length (JsString.trim v)) 0) as [Hlen|Hlen]; [done|].
  destruct (isTranslatableNode config node) eqn:Htr; [|done].
  exfalso. destruct H as [H|[H|[(v' & Hv' & Hws)|H]]]; try done.
  simplify_eq. by apply Hlen, JsStringFacts.trim_length_0.
Qed.

Lemma handleNode_register config env node st v :
  nodeStorage st !! nodeKey node = None →
  nodeValue st !! nodeKey node = Some v →
  JsString.allWhiteSpace v = false →
  isTranslatableNode config node = true →
  handleNode config env node st = Ok () (registered env node v st).
Proof.
  intros Hnone Hv Hws Htr. unfold handleNode.
  rewrite bool_decide_eq_false_2 by (rewrite Hnone; by intros [? ?]).
  rewrite Hv.
  destruct (Nat.eqb_spec (String.length (JsString.trim v)) 0) as [Hlen|Hlen].
  { apply JsStringFacts.trim_length_0 in Hlen. congruence. }
  rewrite Htr. cbn [negb].
  erewrite translateNode_registered by (cbn; apply lookup_insert_eq).
  cbn. by rewrite Hv.
Qed.

(** [handleNode] either leaves the state as it is, or registers the
    node. *)
Lemma handleNode_cases config env node st :
  handleNode config env node st = Ok () st ∨
  ∃ v, nodeStorage st !! nodeKey node = None ∧
       nodeValue st !! nodeKey node = Some v ∧
       JsString.allWhiteSpace v = false ∧
       isTranslatableNode config node = true ∧
       handleNode config env node st = Ok () (registered env node v st).
Proof.
  destruct (nodeStorage st !! nodeKey node) as [d|] eqn:Hd.
  { left. apply handleNode_skip. left. by exists d. }
  destruct (nodeValue st !! nodeKey node) as [v|] eqn:Hv.
  2: { left. apply handleNode_skip. by right; left. }
  destruct (JsString.allWhiteSpace v) eqn:Hws.
  { left. apply handleNode_skip. right; right; left. by exists v. }
  destruct (isTranslatableNode config node) eqn:Htr.
  2: { left. apply handleNode_skip. by do 3 right. }
  right. exists v. split_and!; try done. by apply handleNode_register.
Qed.

Lemma deferred_or_not config env node :
  deferred config env node ∨ ¬ deferred config env node.
Proof.
  unfold deferred.
  destruct (lazyTranslate config); [|right; by intros [? _]].
  destruct (isAttachedToDOM node); [|right; by intros (_ & ? & _)].
  destruct (observableNode node) as [o|]; [|right; by intros (_ & _ & ? & ? & _)].
  destruct (isIntersectableNode env o) eqn:Ho.
  - left. split_and!; try done. by exists o.
  - right. intros (_ & _ & o' & [= <-] & Ho'). congruence.
Qed.

Lemma addNodeUnit_not_deferred config env node st :
  ¬ deferred config env node →
  addNodeUnit config env node st = handleNode config env node st.
Proof.
  intros Hnd. unfold addNodeUnit.
  destruct (lazyTranslate config) eqn:Hlazy; [|done].
  destruct (observableNode node) as [o|] eqn:Ho; [|done].
  destruct (isAttachedToDOM node) eqn:Hatt; [|done].
  destruct (isIntersectableNode env o) eqn:Hint; [|done].
  exfalso. apply Hnd. split_and!; try done. by exists o.
Qed.

Lemma addNodeUnit_deferred config env node st :
  deferred config env node →
  ∃ observable,
    observableNode node = Some observable ∧
    addNodeUnit config env node st =
      handleElementByIntersectViewport observable st.
Proof.
  intros (Hlazy & Hatt & o & Ho & Hint). exists o. split; [done|].
  unfold addNodeUnit. by rewrite Hlazy, Ho, Hatt, Hint.
Qed.

Lemma handleElementByIntersectViewport_frame node st :
  let r := handleElementByIntersectViewport node st in
  isOk r = true ∧
  nodeStorage (stateOf r) = nodeStorage st ∧
  idCounter (stateOf r) = idCounter st ∧
  nodeValue (stateOf r) = nodeValue st ∧
  translateCalls (stateOf r) = translateCalls st ∧
  observedNodesStorage (stateOf r) = observedNodesStorage st ∧
  mutationObserved (stateOf r) = mutationObserved st ∧
  nodeKey node ∈ itersectStorage (stateOf r) ∧
  itersectStorage st ⊆ itersectStorage (stateOf r).
Proof.
  unfold handleElementByIntersectViewport.
  case_bool_decide; cbn; split_and!; try done; set_solver.
Qed.

(** C6 (amended).  [addNode] on a unit (a node that is not an element)
    changes neither the store, the identity counter, the node values nor
    the calls of [translateCallback] when the unit is already tracked,
    or has no value, or a value made of white space only, or is not
    eligible.  Otherwise, unless the add is deferred to the viewport
    gate, it registers a record with [id] the current [idCounter] (which
    is then raised by one), [updateId = 1], [translateContext = 0], the
    priority computed by [getNodeScore], and calls [translateCallback]
    with the value of the unit and that priority. *)
Theorem addNode_unit_registers
  (config : InnerConfig) (env : Env) (t : DomTree) (st : State) :
  let node := self t in
  let k := nodeKey node in
  isElement node = false →
  ((is_Some (nodeStorage st !! k) ∨
    nodeValue st !! k = None ∨
    (∃ v, nodeValue st !! k = Some v ∧ JsString.allWhiteSpace v = true) ∨
    isTranslatableNode config node = false) →
   let r := addNode config env t st in
   isOk r = true ∧
   nodeStorage (stateOf r) = nodeStorage st ∧
   idCounter (stateOf r) = idCounter st ∧
   nodeValue (stateOf r) = nodeValue st ∧
   translateCalls (stateOf r) = translateCalls st) ∧
  (∀ v,
     nodeStorage st !! k = None →
     nodeValue st !! k = Some v →
     JsString.allWhiteSpace v = false →
     isTranslatableNode config node = true →
     ¬ deferred config env node →
     addNode config env t st =
       Ok () (mkState (nodeValue st) (idCounter st + 1)
                (<[k := mkNodeData (idCounter st) 1 0 "" (getNodeScore env node)]>
                   (nodeStorage st))
                (itersectStorage st) (itersectObserved st)
                (observedNodesStorage st) (mutationObserved st)
                (translateCalls st ++
                   [mkRequest node (idCounter st) 1 v (getNodeScore env node)]))).
Proof.
  intros node k Helem. unfold addNode. fold node. rewrite Helem. split.
  - intros Hskip. cbv zeta.
    destruct (deferred_or_not config env node) as [Hdef|Hdef].
    + destruct (addNodeUnit_deferred _ _ _ st Hdef) as (o & _ & ->).
      pose proof (handleElementByIntersectViewport_frame o st) as H.
      cbn zeta in H. naive_solver.
    + rewrite addNodeUnit_not_deferred by done.
      by rewrite handleNode_skip.
  - intros v Hnone Hv Hws Htr Hdef.
    rewrite addNodeUnit_not_deferred by done.
    by rewrite (handleNode_register _ _ _ _ v).
Qed.

(** What one call of [handleNode] does to the state. *)
Lemma handleNode_effect config env node st :
  let st' := stateOf (handleNode config env node st) in
  isOk (handleNode config env node st) = true ∧
  nodeValue st' = nodeValue st ∧
  itersectStorage st' = itersectStorage st ∧
  itersectObserved st' = itersectObserved st ∧
  observedNodesStorage st' = observedNodesStorage st ∧
  mutationObserved st' = mutationObserved st ∧
  idCounter st ≤ idCounter st' ∧
  (∀ k d, nodeStorage st !! k = Some d → nodeStorage st' !! k = Some d) ∧
  (∀ k d, nodeStorage st' !! k = Some d →
          nodeStorage st !! k = Some d ∨
          (k = nodeKey node ∧ isTranslatableNode config node = true ∧
           idCounter st ≤ id d < idCounter st')) ∧
  (∃ new, translateCalls st' = translateCalls st ++ new ∧
          ∀ q, q ∈ new → reqNode q = node ∧ isTranslatableNode config node = true).
Proof.
  destruct (handleNode_cases config env node st)
    as [->|(v & Hnone & Hv & Hws & Htr & ->)]; cbn.
  - split_and!; try done; [auto|].
    exists []. split; [by rewrite app_nil_r|]. by intros q ?%elem_of_nil.
  - split_and!; try done; try lia.
    + intros k d Hk. rewrite lookup_insert_ne; [done|]. congruence.
    + intros k d. rewrite lookup_insert. case_decide as Hk.
      * intros [= <-]. right. cbn. split_and!; try done; lia.
      * by left.
    + eexists. split; [done|]. by intros q ->%list_elem_of_singleton.
Qed.

(** After [handleNode], a unit that has a value with more than white
    space and is eligible has a record. *)
Lemma handleNode_tracks config env node st v :
  nodeValue st !! nodeKey node = Some v →
  JsString.allWhiteSpace v = false →
  isTranslatableNode config node = true →
  is_Some (nodeStorage (stateOf (handleNode config env node st)) !! nodeKey node).
Proof.
  intros Hv Hws Htr.
  destruct (nodeStorage st !! nodeKey node) as [d|] eqn:Hd.
  - rewrite handleNode_skip by (left; by exists d). cbn. by exists d.
  - rewrite (handleNode_register _ _ _ _ v) by done. cbn.
    rewrite lookup_insert_eq. by eexists.
Qed.

(** *** The viewport gate *)

Lemma fannedOut_refl config target st : fannedOut config target st st.
Proof.
  unfold fannedOut. split_and!; try done; [auto|].
  exists []. split; [by rewrite app_nil_r|]. by intros q ?%elem_of_nil.
Qed.

Lemma intersectCallback_fannedOut config env target c st0 st :
  c ∈ childNodes target →
  fannedOut config target st0 st →
  fannedOut config target st0 (stateOf (intersectCallback config env c st)).
Proof.
  intros Hc Hst. unfold intersectCallback.
  destruct (isElement (self c)) eqn:Helem; [done|]. cbn [orb].
  destruct (isTranslatableNode config (self c)) eqn:Htr; [|done]. cbn [negb].
  destruct Hst as (Hv & Hg & Ho & Hkeep & Hnew & new & Hcalls & Hreq).
  pose proof (handleNode_effect config env (self c) st) as H. cbv zeta in H.
  destruct H as (_ & Hv' & Hg' & Ho' & _ & _ & _ & Hkeep' & Hnew' & new' & Hcalls' & Hreq').
  assert (Hel : eligibleChild config target (self c)) by (by exists c).
  unfold fannedOut. split_and!; try congruence.
  - auto.
  - intros k d Hk. destruct (Hnew' k d Hk) as [Hold|(-> & _)]; [auto|].
    right. by exists (self c).
  - exists (new ++ new'). split; [by rewrite Hcalls', Hcalls, app_assoc|].
    intros q [Hq|Hq]%elem_of_app; [auto|].
    destruct (Hreq' q Hq) as [-> _]. done.
Qed.

Lemma intersectCallback_isOk config env c st :
  isOk (intersectCallback config env c st) = true.
Proof.
  unfold intersectCallback.
  destruct (_ || _); [done|]. apply handleNode_effect.
Qed.

Lemma intersectCallback_keeps config env c st k :
  is_Some (nodeStorage st !! k) →
  is_Some (nodeStorage (stateOf (intersectCallback config env c st)) !! k).
Proof.
  intros [d Hd]. exists d. unfold intersectCallback.
  destruct (_ || _); [done|]. by apply handleNode_effect.
Qed.

Lemma intersectCallback_value config env c st :
  nodeValue (stateOf (intersectCallback config env c st)) = nodeValue st.
Proof.
  unfold intersectCallback.
  destruct (_ || _); [done|]. apply handleNode_effect.
Qed.

Lemma intersectNode_forEach config env target :
  intersectNode config env target =
  forEach (intersectCallback config env) (childNodes target).
Proof. done. Qed.

(** Every eligible direct child with a value of more than white space
    has a record after the loop. *)
Lemma forEach_intersect_tracks config env l : ∀ st c v,
  c ∈ l →
  isElement (self c) = false →
  isTranslatableNode config (self c) = true →
  nodeValue st !! nodeKey (self c) = Some v →
  JsString.allWhiteSpace v = false →
  is_Some (nodeStorage
             (stateOf (forEach (intersectCallback config env) l st))
           !! nodeKey (self c)).
Proof.
  induction l as [|x l IH]; intros st c v Hc Helem Htr Hv Hws.
  { by apply elem_of_nil in Hc. }
  cbn [forEach]. rewrite bind_unfold.
  pose proof (intersectCallback_isOk config env x st) as Hok.
  pose proof (intersectCallback_value config env x st) as Hval.
  destruct (intersectCallback config env x st) as [[] st1|msg st1] eqn:Hx; [|done].
  cbn in Hval.
  apply elem_of_cons in Hc as [->|Hc].
  - assert (is_Some (nodeStorage st1 !! nodeKey (self x))) as Hsome.
    { replace st1 with (stateOf (intersectCallback config env x st)) by (by rewrite Hx).
      unfold intersectCallback. rewrite Helem, Htr. cbn.
      by eapply handleNode_tracks. }
    revert Hsome. apply (forEach_preserves
      (λ s, is_Some (nodeStorage s !! nodeKey (self x)))).
    intros y s _. apply intersectCallback_keeps.
  - apply (IH st1 c v); try done. by rewrite Hval.
Qed.



(** *** The walk of [addNode] *)

Lemma grows_refl st : grows st st.
Proof. unfold grows. split_and!; try done; try lia; auto. Qed.

Lemma grows_trans st0 st1 st2 : grows st0 st1 → grows st1 st2 → grows st0 st2.
Proof.
  intros (Hc & Hv & Ho & Hm & Hkeep & Hnew) (Hc' & Hv' & Ho' & Hm' & Hkeep' & Hnew').
  unfold grows. split_and!; try congruence; try lia; auto.
  intros k d Hk. destruct (Hnew' k d Hk) as [Hk1|Hid]; [|right; lia].
  destruct (Hnew k d Hk1) as [Hk0|Hid]; [by left|right; lia].
Qed.

Lemma handleNode_grows config env node st :
  grows st (stateOf (handleNode config env node st)).
Proof.
  pose proof (handleNode_effect config env node st) as H. cbv zeta in H.
  destruct H as (_ & Hv & _ & _ & Ho & Hm & Hc & Hkeep & Hnew & _).
  unfold grows. split_and!; try done.
  intros k d Hk. destruct (Hnew k d Hk) as [?|(_ & _ & ?)]; auto.
Qed.

Lemma addNodeUnit_grows config env node st :
  isOk (addNodeUnit config env node st) = true ∧
  grows st (stateOf (addNodeUnit config env node st)).
Proof.
  destruct (deferred_or_not config env node) as [Hdef|Hdef].
  - destruct (addNodeUnit_deferred _ _ _ st Hdef) as (o & _ & ->).
    pose proof (handleElementByIntersectViewport_frame o st) as H. cbv zeta in H.
    destruct H as (Hok & Hs & Hc & Hv & _ & Ho & Hm & _).
    split; [done|]. unfold grows. rewrite Hs, Hc, Hv, Ho, Hm.
    split_and!; try done; try lia; auto.
  - rewrite addNodeUnit_not_deferred by done.
    split; [apply handleNode_effect|apply handleNode_grows].
Qed.

Lemma addNodeCallback_grows config env node st :
  isOk (addNodeCallback config env node st) = true ∧
  grows st (stateOf (addNodeCallback config env node st)).
Proof.
  unfold addNodeCallback.
  destruct (isElement node); [split; [done|apply grows_refl]|].
  destruct (isTranslatableNode config node); [|split; [done|apply grows_refl]].
  apply addNodeUnit_grows.
Qed.

(** [addNode] does not throw, and only adds records with identities
    taken from the counter. *)
Lemma addNode_grows config env t st :
  isOk (addNode config env t st) = true ∧
  grows st (stateOf (addNode config env t st)).
Proof.
  unfold addNode. destruct (isElement (self t)); [|apply addNodeUnit_grows].
  rewrite handleTree_forEach. split.
  - apply forEach_isOk. intros x s _. apply addNodeCallback_grows.
  - apply (forEach_preserves (grows st)); [|apply grows_refl].
    intros x s _ Hs. eapply grows_trans; [exact Hs|apply addNodeCallback_grows].
Qed.

Lemma grows_idsBelowCounter st0 st :
  grows st0 st → idsBelowCounter st0 → idsBelowCounter st.
Proof.
  intros (Hc & _ & _ & _ & _ & Hnew) H0 k d Hk.
  destruct (Hnew k d Hk) as [Hk0|?]; [|lia].
  specialize (H0 k d Hk0). lia.
Qed.

Lemma addNode_idsBelowCounter config env t st :
  idsBelowCounter st → idsBelowCounter (stateOf (addNode config env t st)).
Proof. apply grows_idsBelowCounter, addNode_grows. Qed.

(** *** Removal *)

Lemma deleteNodeOnlyTarget_effect node st :
  ∃ st',
    deleteNodeOnlyTarget node st = Ok () st' ∧
    idCounter st' = idCounter st ∧
    translateCalls st' = translateCalls st ∧
    observedNodesStorage st' = observedNodesStorage st ∧
    mutationObserved st' = mutationObserved st ∧
    nodeStorage st' = delete (nodeKey node) (nodeStorage st) ∧
    (∀ k, nodeValue st' !! k =
          if decide (k = nodeKey node) then restoredValue st k
          else nodeValue st !! k) ∧
    itersectStorage st' =
      (if isElement node then itersectStorage st ∖ {[nodeKey node]}
       else itersectStorage st) ∧
    itersectObserved st' =
      (if isElement node then itersectObserved st ∖ {[nodeKey node]}
       else itersectObserved st).
Proof.
  unfold deleteNodeOnlyTarget, restoredValue.
  set (st1 := if isElement node then _ else st).
  assert (nodeStorage st1 = nodeStorage st ∧ nodeValue st1 = nodeValue st ∧
          idCounter st1 = idCounter st ∧ translateCalls st1 = translateCalls st ∧
          observedNodesStorage st1 = observedNodesStorage st ∧
          mutationObserved st1 = mutationObserved st ∧
          itersectStorage st1 =
            (if isElement node then itersectStorage st ∖ {[nodeKey node]}
             else itersectStorage st) ∧
          itersectObserved st1 =
            (if isElement node then itersectObserved st ∖ {[nodeKey node]}
             else itersectObserved st))
    as (Hs & Hv & Hc & Ht & Ho & Hm & Hg & Hgo).
  { subst st1. by destruct (isElement node). }
  clearbody st1. rewrite Hs.
  destruct (nodeStorage st !! nodeKey node) as [d|] eqn:Hd.
  - eexists. split; [done|]. cbn. rewrite Hv. split_and!; try done.
    intros k. case_decide as Hk.
    + subst k. rewrite Hd. apply writeNodeValue_fmap.
    + by apply writeNodeValue_lookup_ne.
  - exists st1. split; [done|]. split_and!; try done.
    + rewrite Hs. symmetry. by apply delete_id.
    + intros k. rewrite Hv. case_decide as Hk; [|done]. subst k. by rewrite Hd.
Qed.

(** The loop of [deleteNode(node, true)] over a list of nodes. *)
Lemma deleteAll_effect l : ∀ st,
  let r := forEach deleteNodeOnlyTarget l st in
  isOk r = true ∧
  idCounter (stateOf r) = idCounter st ∧
  translateCalls (stateOf r) = translateCalls st ∧
  observedNodesStorage (stateOf r) = observedNodesStorage st ∧
  mutationObserved (stateOf r) = mutationObserved st ∧
  (∀ k, nodeStorage (stateOf r) !! k =
        if decide (k ∈ nodeKey <$> l) then None else nodeStorage st !! k) ∧
  (∀ k, nodeValue (stateOf r) !! k =
        if decide (k ∈ nodeKey <$> l) then restoredValue st k
        else nodeValue st !! k) ∧
  (∀ n, n ∈ l → isElement n = true →
        (nodeKey n ∉ itersectStorage (stateOf r)) ∧
        (nodeKey n ∉ itersectObserved (stateOf r))) ∧
  itersectStorage (stateOf r) ⊆ itersectStorage st ∧
  itersectObserved (stateOf r) ⊆ itersectObserved st.
Proof.
  induction l as [|n l IH]; intros st; cbv zeta.
  { cbn. split_and!; try done. by intros n ?%elem_of_nil. }
  cbn [forEach]. rewrite bind_unfold.
  destruct (deleteNodeOnlyTarget_effect n st)
    as (st1 & -> & Hc & Ht & Ho & Hm & Hs & Hv & Hg & Hgo).
  specialize (IH st1). cbv zeta in IH.
  destruct IH as (Hok & Hc' & Ht' & Ho' & Hm' & Hs' & Hv' & Hgate' & Hsub & Hsubo).
  assert (Hsub1 : itersectStorage st1 ⊆ itersectStorage st).
  { rewrite Hg. destruct (isElement n); set_solver. }
  assert (Hsubo1 : itersectObserved st1 ⊆ itersectObserved st).
  { rewrite Hgo. destruct (isElement n); set_solver. }
  split_and!; try congruence.
  - intros k. rewrite Hs', Hs. rewrite fmap_cons.
    assert (Hin : k ∈ nodeKey n :: (nodeKey <$> l) ↔ k = nodeKey n ∨ k ∈ nodeKey <$> l)
      by apply elem_of_cons.
    destruct (decide (k = nodeKey n)) as [->|Hk].
    + rewrite lookup_delete_eq. repeat case_decide; naive_solver.
    + rewrite lookup_delete_ne by done. repeat case_decide; naive_solver.
  - intros k. rewrite Hv'. rewrite fmap_cons.
    assert (Hin : k ∈ nodeKey n :: (nodeKey <$> l) ↔ k = nodeKey n ∨ k ∈ nodeKey <$> l)
      by apply elem_of_cons.
    assert (Hres : restoredValue st1 k =
                   if decide (k = nodeKey n) then restoredValue st k
                   else restoredValue st k).
    { unfold restoredValue at 1. rewrite Hs, Hv.
      destruct (decide (k = nodeKey n)) as [->|Hk].
      - by rewrite lookup_delete_eq.
      - by rewrite lookup_delete_ne. }
    rewrite Hres, Hv.
    destruct (decide (k = nodeKey n)); repeat case_decide; naive_solver.
  - intros m [->|Hm0]%elem_of_cons Helem; [|by apply Hgate'].
    rewrite Helem in Hg, Hgo. set_solver.
  - set_solver.
  - set_solver.
Qed.

Lemma self_in_treeUnits t : self t ∈ treeUnits t.
Proof. destruct t. cbn. by left. Qed.

(** [deleteNode(node)] on an element: [deleteNode(_, true)] on every
    node of the walk, then on the element once more. *)
Lemma deleteNode_forEach t st :
  isElement (self t) = true →
  deleteNode t false st =
  forEach deleteNodeOnlyTarget (treeUnits t ++ [self t]) st.
Proof.
  intros Helem. unfold deleteNode. rewrite Helem. cbn [negb andb].
  rewrite forEach_app, !bind_unfold, handleTree_forEach.
  destruct (forEach deleteNodeOnlyTarget (treeUnits t) st) as [[] st1|]; [|done].
  cbn [forEach]. rewrite bind_unfold.
  by destruct (deleteNodeOnlyTarget (self t) st1) as [[] ?|].
Qed.

Lemma deleteNode_isOk t onlyTarget st :
  isOk (deleteNode t onlyTarget st) = true.
Proof.
  unfold deleteNode. rewrite bind_unfold.
  assert (Hfirst : ∃ st1,
    (if isElement (self t) && negb onlyTarget
     then handleTree deleteNodeOnlyTarget t else ret ()) st = Ok () st1).
  { destruct (isElement (self t) && negb onlyTarget); [|by eexists].
    rewrite handleTree_forEach.
    pose proof (deleteAll_effect (treeUnits t) st) as H. cbv zeta in H.
    destruct H as [Hok _].
    destruct (forEach deleteNodeOnlyTarget (treeUnits t) st) as [[] st1|]; [|done].
    by eexists. }
  destruct Hfirst as [st1 ->].
  by destruct (deleteNodeOnlyTarget_effect (self t) st1) as (st2 & -> & _).
Qed.

(** C5.  [deleteNode] on an element, [onlyTarget] being [false], runs
    [deleteNode(_, true)] on every node the tree walker enumerates (the
    element, its descendants, their attributes, the shadow trees) and
    drops the registration of the element with the viewport gate.
    Afterwards no enumerated unit has a record; the value of every unit
    that had a record is its stored [originalText]; units outside the
    walk keep their record and value; [idCounter] is unchanged.  Adding
    the same tree again gives every unit of the walk that is registered
    an identity at or above the counter at the time of the removal, so
    none of an identity handed out before. *)
Theorem deleteNode_restores_and_forgets
  (config : InnerConfig) (env : Env) (t : DomTree) (st : State) :
  isElement (self t) = true →
  let r := deleteNode t false st in
  let st' := stateOf r in
  isOk r = true ∧
  (∀ n, n ∈ treeUnits t →
     nodeStorage st' !! nodeKey n = None ∧
     (∀ d, nodeStorage st !! nodeKey n = Some d →
           nodeValue st' !! nodeKey n
             = (λ _, originalText d) <$> nodeValue st !! nodeKey n) ∧
     (isElement n = true →
      (nodeKey n ∉ itersectStorage st') ∧ (nodeKey n ∉ itersectObserved st'))) ∧
  (nodeKey (self t) ∉ itersectStorage st') ∧
  (nodeKey (self t) ∉ itersectObserved st') ∧
  (∀ k, k ∉ nodeKey <$> treeUnits t →
        nodeStorage st' !! k = nodeStorage st !! k ∧
        nodeValue st' !! k = nodeValue st !! k) ∧
  idCounter st' = idCounter st ∧
  let r2 := addNode config env t st' in
  isOk r2 = true ∧
  ∀ n d', n ∈ treeUnits t →
          nodeStorage (stateOf r2) !! nodeKey n = Some d' →
          idCounter st ≤ id d' ∧
          (idsBelowCounter st →
           ∀ k d, nodeStorage st !! k = Some d → id d' ≠ id d).
Proof.
  intros Helem. cbv zeta. rewrite deleteNode_forEach by done.
  pose proof (deleteAll_effect (treeUnits t ++ [self t]) st) as H. cbv zeta in H.
  destruct H as (Hok & Hc & _ & _ & _ & Hs & Hv & Hgate & _ & _).
  set (st' := stateOf (forEach deleteNodeOnlyTarget (treeUnits t ++ [self t]) st)) in *.
  assert (Hkeys : ∀ k, k ∈ nodeKey <$> (treeUnits t ++ [self t])
                       ↔ k ∈ nodeKey <$> treeUnits t).
  { intros k. rewrite fmap_app, elem_of_app. split; [|by left].
    intros [?|Hk]; [done|]. cbn in Hk. apply list_elem_of_singleton in Hk as ->.
    apply list_elem_of_fmap_2, self_in_treeUnits. }
  assert (Hgone : ∀ n, n ∈ treeUnits t → nodeStorage st' !! nodeKey n = None).
  { intros n Hn. rewrite Hs. rewrite decide_True; [done|].
    by apply Hkeys, list_elem_of_fmap_2. }
  split_and!; try done.
  - intros n Hn. split_and!.
    + by apply Hgone.
    + intros d Hd. rewrite Hv. rewrite decide_True.
      * unfold restoredValue. by rewrite Hd.
      * by apply Hkeys, list_elem_of_fmap_2.
    + intros Hne. apply Hgate; [|done]. apply elem_of_app. by left.
  - apply Hgate; [|done]. apply elem_of_app. right. by left.
  - apply Hgate; [|done]. apply elem_of_app. right. by left.
  - intros k Hk. rewrite Hs, Hv.
    rewrite !decide_False; [done| |]; by rewrite Hkeys.
  - apply addNode_grows.
  - intros n d' Hn Hd'.
    destruct (addNode_grows config env t st') as (_ & _ & _ & _ & _ & _ & Hnew).
    destruct (Hnew _ _ Hd') as [Hold|Hid].
    { rewrite Hgone in Hold by done. done. }
    rewrite Hc in Hid. split; [lia|].
    intros Hbelow k d Hk. specialize (Hbelow k d Hk). lia.
Qed.

(** *** Observed roots *)



(** *** Content changes as the mutation watch reports them *)

(** A change of the data of a text node, and a change of the value of
    an attribute that is tracked, both end in [updateNode]. *)
Lemma handleMutation_content_change config env st :
  (∀ node, handleMutation config env (CharacterData node) st = updateNode node st) ∧
  (∀ target name attribute,
     isElement (self target) = true →
     getNamedItem name (attributes target) = Some attribute →
     is_Some (nodeStorage st !! nodeKey attribute) →
     handleMutation config env (ChangeAttribute target (Some name)) st
     = updateNode attribute st).
Proof.
  split; [done|]. intros target name attribute Helem Hattr Htracked.
  cbn. rewrite Helem, Hattr. cbn. by rewrite bool_decide_eq_true_2.
Qed.

(** *** Identities come from the counter *)

Lemma updateNode_idsBelowCounter node st :
  idsBelowCounter st → idsBelowCounter (stateOf (updateNode node st)).
Proof.
  intros Hst. unfold updateNode.
  destruct (nodeStorage st !! nodeKey node) as [d|] eqn:Hd; [|done].
  erewrite translateNode_registered by (cbn; apply lookup_insert_eq).
  assert (Hgoal : idsBelowCounter
            (setNodeStorage
               (<[nodeKey node := withUpdateId (updateId d + 1) d]> (nodeStorage st)) st)).
  { intros k d'. cbn. rewrite lookup_insert. case_decide as Hk.
    - intros [= <-]. cbn. by apply (Hst (nodeKey node)).
    - apply Hst. }
  cbn [stateOf]. destruct (nodeValue _ !! _); [|done]. by destruct (_ <=? _).
Qed.

Lemma settleTranslate_idsBelowCounter req outcome st :
  idsBelowCounter st → idsBelowCounter (settleTranslate req outcome st).2.
Proof.
  intros Hst. destruct outcome as [text|reason]; [|done].
  unfold settleTranslate, promiseThen, onTranslated.
  destruct (nodeStorage st !! nodeKey (reqNode req)) as [d|] eqn:Hd; [|done].
  destruct (negb _); [done|]. destruct (negb _); [done|].
  intros k d'. cbn. rewrite lookup_insert. case_decide as Hk.
  - intros [= <-]. cbn. by apply (Hst (nodeKey (reqNode req))).
  - apply Hst.
Qed.

Lemma deleteNode_idsBelowCounter t onlyTarget st :
  idsBelowCounter st → idsBelowCounter (stateOf (deleteNode t onlyTarget st)).
Proof.
  intros Hst. unfold deleteNode. rewrite bind_unfold.
  assert (Hfirst : ∃ st1,
    (if isElement (self t) && negb onlyTarget
     then handleTree deleteNodeOnlyTarget t else ret ()) st = Ok () st1 ∧
    idsBelowCounter st1).
  { destruct (isElement (self t) && negb onlyTarget); [|by eexists].
    rewrite handleTree_forEach.
    pose proof (deleteAll_effect (treeUnits t) st) as H. cbv zeta in H.
    destruct H as (Hok & Hc & _ & _ & _ & Hs & _).
    destruct (forEach deleteNodeOnlyTarget (treeUnits t) st) as [[] st1|]; [|done].
    eexists. split; [done|]. cbn in Hc, Hs. intros k d. rewrite Hs, Hc.
    case_decide; [done|]. apply Hst. }
  destruct Hfirst as (st1 & -> & Hst1).
  destruct (deleteNodeOnlyTarget_effect (self t) st1)
    as (st2 & -> & Hc & _ & _ & _ & Hs & _).
  cbn. intros k d. rewrite Hs, Hc. intros Hk.
  apply lookup_delete_Some in Hk as [_ Hk]. by apply (Hst1 k).
Qed.

(** *** The translator on the page *)

Import Page.

Example observe_eager_translates_title_and_text :
  (λ st, (map (λ q, (nodeKey (reqNode q), reqText q)) (translateCalls st),
          dom (nodeStorage st)))
    (stateOf (observe eager env htmlTree initial))
  = ([(4%positive, "Hola"); (7%positive, "Hello")], {[4%positive; 7%positive]}).
Proof. vm_compute. reflexivity. Qed.

Example observe_lazy_defers_text :
  (λ st, (map (λ q, (nodeKey (reqNode q), reqText q)) (translateCalls st),
          elements (itersectStorage st)))
    (stateOf (observe lazy env htmlTree initial))
  = ([(4%positive, "Hola")], [3%positive]).
Proof. vm_compute. reflexivity. Qed.

Example script_text_not_eligible :
  isTranslatableNode eager code = false ∧ isTranslatableNode eager script = false.
Proof. split; vm_compute; reflexivity. Qed.

Example initial_idsBelowCounter : idsBelowCounter initial.
Proof. intros k d Hk. vm_compute in Hk. discriminate. Qed.

Example translated_hello :
  nodeValue translated !! 7%positive = Some "Bonjour" ∧
  nodeStorage translated !! 7%positive = Some (mkNodeData 0 2 2 "Hello" 4).
Proof. split; vm_compute; reflexivity. Qed.

Lemma commit_absorbs_own_update_witness :
  translateCalls translated = translateCalls tracked.
Proof.
  assert (Hd : nodeStorage tracked !! nodeKey (reqNode helloRequest)
               = Some (mkNodeData 0 1 0 "" 4)) by (vm_compute; reflexivity).
  assert (Hv : nodeValue tracked !! nodeKey (reqNode helloRequest) = Some "Hello")
    by (vm_compute; reflexivity).
  pose proof (commit_absorbs_own_update helloRequest "Bonjour" tracked
                (mkNodeData 0 1 0 "" 4) "Hello" Hd eq_refl eq_refl Hv) as H.
  cbv zeta in H. destruct H as (_ & _ & _ & _ & _ & _ & H & _). exact H.
Defined.

Lemma translate_rejection_propagates_witness :
  (settleTranslate helloRequest (Rejected "network")
     (stateOf (translateNode hello tracked))).1
  = Rejected "network".
Proof.
  assert (Hd : nodeStorage tracked !! nodeKey hello = Some (mkNodeData 0 1 0 "" 4))
    by (vm_compute; reflexivity).
  assert (Hv : nodeValue tracked !! nodeKey hello = Some "Hello")
    by (vm_compute; reflexivity).
  pose proof (translate_rejection_propagates hello "network" tracked
                (mkNodeData 0 1 0 "" 4) "Hello" Hd Hv
                ltac:(cbn; lia)) as H.
  cbv zeta in H. destruct H as (_ & _ & H & _). exact H.
Defined.


Lemma deleteNode_restores_and_forgets_witness :
  nodeValue (stateOf (deleteNode divTree false translated)) !! nodeKey hello
  = (λ _, "Hello") <$> nodeValue translated !! nodeKey hello.
Proof.
  pose proof (deleteNode_restores_and_forgets eager env divTree translated eq_refl) as H.
  cbv zeta in H. destruct H as (_ & Hunits & _).
  assert (Hin : hello ∈ treeUnits divTree).
  { cbn. do 4 right. left. }
  destruct (Hunits hello Hin) as (_ & Hvalue & _).
  assert (Hd : nodeStorage translated !! nodeKey hello = Some (mkNodeData 0 2 2 "Hello" 4))
    by (vm_compute; reflexivity).
  exact (Hvalue _ Hd).
Defined.

Lemma addNode_unit_registers_witness :
  addNode eager env (leaf hello) initial
  = Ok () (mkState (nodeValue initial) 1
             (<[nodeKey hello := mkNodeData 0 1 0 "" 4]> ∅) ∅ ∅ ∅ ∅
             [mkRequest hello 0 1 "Hello" 4]).
Proof.
  pose proof (addNode_unit_registers eager env (leaf hello) initial eq_refl) as H.
  cbv zeta in H. destruct H as [_ Hreg].
  assert (Hv : nodeValue initial !! nodeKey (self (leaf hello)) = Some "Hello")
    by (vm_compute; reflexivity).
  assert (Htr : isTranslatableNode eager (self (leaf hello)) = true)
    by (vm_compute; reflexivity).
  assert (Hnd : ¬ deferred eager env (self (leaf hello))).
  { intros [Hlazy _]. vm_compute in Hlazy. discriminate. }
  exact (Hreg "Hello" eq_refl Hv eq_refl Htr Hnd).
Defined.

(** C6, as stated, fails when the add is deferred.  In lazy mode the
    text node [hello], under [div] under [body], is untracked, has the
    value [Hello] and is eligible; [addNode] on it registers no record
    and calls [translateCallback] for nothing: it only registers [div]
    with the viewport gate. *)
Lemma addNode_lazy_registers_nothing :
  isElement hello = false ∧
  nodeStorage initial !! nodeKey hello = None ∧
  nodeValue initial !! nodeKey hello = Some "Hello" ∧
  JsString.allWhiteSpace "Hello" = false ∧
  isTranslatableNode lazy hello = true ∧
  addNode lazy env (leaf hello) initial
    = Ok () (setItersect {[nodeKey div]} {[nodeKey div]} initial) ∧
  nodeStorage (stateOf (addNode lazy env (leaf hello) initial)) !! nodeKey hello = None ∧
  translateCalls (stateOf (addNode lazy env (leaf hello) initial)) = [].
Proof. split_and!; vm_compute; reflexivity. Qed.

(** C3 on the code: a unit that is registered and not yet translated.
    [hello] has the value [Hello]; after [addNode] registered it, the
    stored [originalText] is the empty string, [getNodeData] returns the
    empty string, and [deleteNode] writes the empty string to the node. *)
Lemma originalText_empty_until_commit :
  nodeValue tracked !! nodeKey hello = Some "Hello" ∧
  nodeStorage tracked !! nodeKey hello = Some (mkNodeData 0 1 0 "" 4) ∧
  getNodeData hello tracked = Some "" ∧
  getNodeData loose tracked = None ∧
  nodeValue (stateOf (deleteNode (leaf hello) false tracked)) !! nodeKey hello
  = Some "".
Proof. split_and!; vm_compute; reflexivity. Qed.

End NodesTranslatorFacts.

(** ** The node translator: further properties *)

Module NodesTranslatorLaws.

Import NodesTranslator NodesTranslatorFacts.

(** *** Configuration and priority *)

Lemma elem_of_filterString tag tags :
  tag ∈ filterString tags ↔ tag ≠ "" ∧ tag ∈ tags.
Proof. unfold filterString. by rewrite list_elem_of_filter. Qed.

(** X1.  The constructor keeps of [ignoredTags] and of
    [translatableAttributes] exactly the non-empty strings of the lists
    it is given, and nothing when the list or the configuration is
    absent; lazy mode is off only when the configuration says [false]. *)
Theorem innerConfig_sets (config : option Config) :
  (∀ tag, tag ∈ ignoredTags (innerConfig config) ↔
          tag ≠ "" ∧ ∃ c tags, config = Some c ∧
                               cfgIgnoredTags c = Some tags ∧ tag ∈ tags) ∧
  (∀ name, name ∈ translatableAttributes (innerConfig config) ↔
           name ≠ "" ∧ ∃ c names, config = Some c ∧
                                  cfgTranslatableAttributes c = Some names ∧
                                  name ∈ names) ∧
  (lazyTranslate (innerConfig config) = false ↔
   ∃ c, config = Some c ∧ cfgLazyTranslate c = Some false).
Proof.
  unfold innerConfig. destruct config as [c|]; cbn.
  - split_and!.
    + intros tag. destruct (cfgIgnoredTags c) as [tags|] eqn:Htags.
      * rewrite elem_of_list_to_set, elem_of_filterString. split.
        -- intros [? ?]. split; [done|]. by exists c, tags.
        -- intros [? (c' & tags' & [= <-] & Heq & ?)].
           rewrite Htags in Heq. by injection Heq as <-.
      * rewrite elem_of_empty. split; [done|].
        intros [_ (c' & tags' & [= <-] & Heq & _)]. congruence.
    + intros name. destruct (cfgTranslatableAttributes c) as [names|] eqn:Hnames.
      * rewrite elem_of_list_to_set, elem_of_filterString. split.
        -- intros [? ?]. split; [done|]. by exists c, names.
        -- intros [? (c' & names' & [= <-] & Heq & ?)].
           rewrite Hnames in Heq. by injection Heq as <-.
      * rewrite elem_of_empty. split; [done|].
        intros [_ (c' & names' & [= <-] & Heq & _)]. congruence.
    + destruct (cfgLazyTranslate c) as [[]|] eqn:Hlazy; split; try done.
      * intros (c' & [= <-] & Heq). congruence.
      * intros _. by exists c.
      * intros (c' & [= <-] & Heq). congruence.
  - split_and!.
    + intros tag. rewrite elem_of_empty. split; [done|].
      by intros [_ (c' & tags' & ? & _)].
    + intros name. rewrite elem_of_empty. split; [done|].
      by intros [_ (c' & names' & ? & _)].
    + split; [done|]. by intros (c' & ? & _).
Qed.

Lemma getNodeScore_le_4 env node : getNodeScore env node ≤ 4.
Proof.
  unfold getNodeScore. destruct (nodeType node); try lia.
  - destruct (ownerElement node); [destruct (isInViewport _ _)|]; lia.
  - destruct (parentElement node); [destruct (isInViewport _ _)|]; lia.
Qed.

(** X2.  The priority is at most 4; it is 1 or 3 for an attribute, 2
    or 4 for a text node, 0 for every other node; and an attribute whose
    owner element is in the viewport has a higher priority than a text
    node whose parent element is not. *)
Theorem getNodeScore_values (env : Env) (node : Node) :
  getNodeScore env node ≤ 4 ∧
  match nodeType node with
  | AttrType _ => getNodeScore env node = 1 ∨ getNodeScore env node = 3
  | TextType => getNodeScore env node = 2 ∨ getNodeScore env node = 4
  | _ => getNodeScore env node = 0
  end ∧
  (∀ owner text,
     isAttr node = true →
     ownerElement node = Some owner →
     isInViewport env (nodeKey owner) = true →
     nodeType text = TextType →
     (∀ parent, parentElement text = Some parent →
                isInViewport env (nodeKey parent) = false) →
     getNodeScore env text < getNodeScore env node).
Proof.
  split_and!.
  - apply getNodeScore_le_4.
  - unfold getNodeScore. destruct (nodeType node); try done.
    + destruct (ownerElement node); [destruct (isInViewport _ _)|]; auto.
    + destruct (parentElement node); [destruct (isInViewport _ _)|]; auto.
  - intros owner text Hattr Howner Hvis Htext Hhidden.
    unfold getNodeScore, isAttr in *. rewrite Htext.
    destruct (nodeType node); try done. rewrite Howner, Hvis.
    destruct (parentElement text) as [parent|]; [|lia].
    rewrite (Hhidden parent eq_refl). lia.
Qed.

(** *** Throws *)

Lemma updateNode_isOk node st : isOk (updateNode node st) = true.
Proof.
  unfold updateNode. destruct (nodeStorage st !! nodeKey node) as [d|]; [|done].
  by erewrite translateNode_registered by (cbn; apply lookup_insert_eq).
Qed.






(** *** Versions *)

Lemma updateNode_record node st d :
  nodeStorage st !! nodeKey node = Some d →
  nodeStorage (stateOf (updateNode node st)) !! nodeKey node
  = Some (mkNodeData (id d) (updateId d + 1) (translateContext d)
            (originalText d) (priority d)).
Proof.
  intros Hd. unfold updateNode. rewrite Hd.
  erewrite translateNode_registered by (cbn; apply lookup_insert_eq).
  cbn -[N.leb N.add].
  destruct (nodeValue st !! nodeKey node); cbn -[N.leb N.add];
    [destruct (_ <=? _); cbn -[N.leb N.add]|]; apply lookup_insert_eq.
Qed.

(** X4.  [updateNode] on a unit without a record does nothing.  On a
    tracked unit it raises [updateId] by exactly one and leaves the rest
    of the record, every other record, the values of the nodes and the
    identity counter as they are; it calls [translateCallback], once,
    exactly when the unit has a value and the new [updateId] is above
    [translateContext]. *)
Theorem updateNode_bumps_version (node : Node) (st : State) :
  let k := nodeKey node in
  let st' := stateOf (updateNode node st) in
  (nodeStorage st !! k = None → updateNode node st = Ok () st) ∧
  (∀ d, nodeStorage st !! k = Some d →
        isOk (updateNode node st) = true ∧
        nodeStorage st' !! k
          = Some (mkNodeData (id d) (updateId d + 1) (translateContext d)
                    (originalText d) (priority d)) ∧
        (∀ k', k' ≠ k → nodeStorage st' !! k' = nodeStorage st !! k') ∧
        nodeValue st' = nodeValue st ∧
        idCounter st' = idCounter st ∧
        translateCalls st' =
          translateCalls st ++
          match nodeValue st !! k with
          | Some text =>
              if updateId d + 1 <=? translateContext d then []
              else [mkRequest node (id d) (updateId d + 1) text (priority d)]
          | None => []
          end).
Proof.
  intros k st'. subst st'. split.
  - intros Hnone. unfold updateNode. fold k. by rewrite Hnone.
  - intros d Hd. split; [apply updateNode_isOk|].
    unfold updateNode. fold k. rewrite Hd.
    erewrite translateNode_registered by (cbn; apply lookup_insert_eq).
    cbn -[N.leb N.add]. fold k.
    destruct (nodeValue st !! k) as [text|]; cbn -[N.leb N.add].
    + destruct (updateId d + 1 <=? translateContext d); cbn -[N.leb N.add].
      * split_and!; try done; [apply lookup_insert_eq| |by rewrite app_nil_r].
        intros k' Hk'. by apply lookup_insert_ne.
      * split_and!; try done; [apply lookup_insert_eq|].
        intros k' Hk'. by apply lookup_insert_ne.
    + split_and!; try done; [apply lookup_insert_eq| |by rewrite app_nil_r].
      intros k' Hk'. by apply lookup_insert_ne.
Qed.

(** *** Results that come too late *)

(** The continuation drops the result when no record carries both the
    identity and the version of the request. *)
Lemma settleTranslate_discarded req text st :
  (∀ d, nodeStorage st !! nodeKey (reqNode req) = Some d →
        id d ≠ reqNodeId req ∨ updateId d ≠ reqNodeContext req) →
  settleTranslate req (Fulfilled text) st = (Fulfilled None, st).
Proof.
  intros Hno. unfold settleTranslate, promiseThen, onTranslated.
  destruct (nodeStorage st !! nodeKey (reqNode req)) as [d|] eqn:Hd; [|done].
  destruct (N.eqb_spec (reqNodeId req) (id d)) as [Hid|Hid]; [|done].
  destruct (N.eqb_spec (reqNodeContext req) (updateId d)) as [Hctx|Hctx]; [|done].
  destruct (Hno d eq_refl); congruence.
Qed.

(** X5.  A request captured a version of a tracked unit, the current
    one or an earlier one.  After one more [updateNode] on the unit (an
    edit of the page while the call is in flight) the resolution of the
    request writes nothing: the edited text stays in the node and the
    record is the one the edit left. *)
Theorem edit_in_flight_discards_result
  (req : Request) (text : string) (st : State) (d : NodeData) :
  nodeStorage st !! nodeKey (reqNode req) = Some d →
  reqNodeContext req ≤ updateId d →
  let st' := stateOf (updateNode (reqNode req) st) in
  settleTranslate req (Fulfilled text) st' = (Fulfilled None, st').
Proof.
  intros Hd Hle st'. apply settleTranslate_discarded. intros d' Hd'.
  subst st'. rewrite (updateNode_record _ _ _ Hd) in Hd'.
  injection Hd' as <-. right. cbn. lia.
Qed.

(** X6.  Once [deleteNode] has run on an element, the resolution of a
    request made for any unit of its walk writes nothing.  This stays so
    when the same tree is added again: the records [addNode] then makes
    carry identities that no request made before the removal carries. *)
Theorem removal_discards_results
  (config : InnerConfig) (env : Env) (t : DomTree) (req : Request)
  (text : string) (st : State) :
  isElement (self t) = true →
  reqNode req ∈ treeUnits t →
  reqNodeId req < idCounter st →
  let st1 := stateOf (deleteNode t false st) in
  let st2 := stateOf (addNode config env t st1) in
  settleTranslate req (Fulfilled text) st1 = (Fulfilled None, st1) ∧
  settleTranslate req (Fulfilled text) st2 = (Fulfilled None, st2).
Proof.
  intros Helem Hin Hid st1 st2.
  assert (nodeStorage st1 !! nodeKey (reqNode req) = None ∧
          idCounter st1 = idCounter st) as [Hgone Hc].
  { subst st1. rewrite deleteNode_forEach by done.
    pose proof (deleteAll_effect (treeUnits t ++ [self t]) st) as H. cbv zeta in H.
    destruct H as (_ & Hc & _ & _ & _ & Hs & _). split; [|done].
    rewrite Hs. rewrite decide_True; [done|].
    apply list_elem_of_fmap_2, elem_of_app. by left. }
  split.
  - apply settleTranslate_discarded. intros d Hd. congruence.
  - apply settleTranslate_discarded. intros d Hd. left.
    destruct (addNode_grows config env t st1) as (_ & _ & _ & _ & _ & _ & Hnew).
    destruct (Hnew _ _ Hd) as [Hold|Hfresh]; [congruence|]. lia.
Qed.

(** X7.  A unit is registered, its call resolves with a translation,
    the update caused by the write is handled, then the unit is
    removed.  While translated, the node holds the translation and
    [getNodeData] returns the text the node had before; the removal
    puts that text back into the node and drops the record. *)
Theorem translate_then_remove_restores
  (config : InnerConfig) (env : Env) (t : DomTree) (v text : string) (st : State) :
  let node := self t in
  let k := nodeKey node in
  isElement node = false →
  nodeStorage st !! k = None →
  nodeValue st !! k = Some v →
  JsString.allWhiteSpace v = false →
  isTranslatableNode config node = true →
  let req := mkRequest node (idCounter st) 1 v (getNodeScore env node) in
  let st1 := stateOf (handleNode config env node st) in
  let st2 := (settleTranslate req (Fulfilled text) st1).2 in
  let st3 := stateOf (updateNode node st2) in
  let st4 := stateOf (deleteNode t false st3) in
  translateCalls st1 = translateCalls st ++ [req] ∧
  nodeValue st2 !! k = Some text ∧
  getNodeData node st2 = Some v ∧
  translateCalls st3 = translateCalls st1 ∧
  nodeValue st3 !! k = Some text ∧
  getNodeData node st3 = Some v ∧
  nodeValue st4 !! k = Some v ∧
  nodeStorage st4 !! k = None ∧
  getNodeData node st4 = None.
Proof.
  intros node k Helem Hnone Hv Hws Htr req st1 st2 st3 st4.
  assert (H1 : st1 = registered env node v st).
  { subst st1. by rewrite (handleNode_register config env node st v). }
  set (d1 := mkNodeData (idCounter st) 1 0 "" (getNodeScore env node)).
  assert (Hd1 : nodeStorage st1 !! k = Some d1).
  { rewrite H1. cbn. apply lookup_insert_eq. }
  assert (Hv1 : nodeValue st1 !! k = Some v) by (by rewrite H1).
  assert (Hc1 : translateCalls st1 = translateCalls st ++ [req]) by (by rewrite H1).
  clearbody st1.
  assert (H2 : st2 = committed req text d1 st1).
  { subst st2. by rewrite (settleTranslate_current req text st1 d1 Hd1). }
  set (d2 := mkNodeData (idCounter st) 1 2 v (getNodeScore env node)).
  assert (Hd2 : nodeStorage st2 !! k = Some d2).
  { rewrite H2. unfold committed. cbn. fold node k. rewrite Hv1. apply lookup_insert_eq. }
  assert (Hv2 : nodeValue st2 !! k = Some text).
  { rewrite H2. unfold committed. cbn. by eapply writeNodeValue_lookup. }
  assert (Hc2 : translateCalls st2 = translateCalls st1) by (by rewrite H2).
  clearbody st2.
  set (d3 := mkNodeData (idCounter st) 2 2 v (getNodeScore env node)).
  assert (H3 : updateNode node st2
               = Ok () (setNodeStorage (<[k := d3]> (nodeStorage st2)) st2)).
  { by rewrite (updateNode_tracked node st2 d2 text Hd2 Hv2). }
  assert (Hd3 : nodeStorage st3 !! k = Some d3).
  { subst st3. rewrite H3. cbn. apply lookup_insert_eq. }
  assert (Hv3 : nodeValue st3 !! k = Some text) by (subst st3; by rewrite H3).
  assert (Hc3 : translateCalls st3 = translateCalls st1) by (subst st3; by rewrite H3).
  clearbody st3.
  assert (H4 : deleteNode t false st3 = deleteNodeOnlyTarget node st3).
  { unfold deleteNode. fold node. by rewrite Helem. }
  destruct (deleteNodeOnlyTarget_effect node st3)
    as (st4' & Hdel & _ & _ & _ & _ & Hs4 & Hv4 & _).
  assert (st4 = st4') as -> by (subst st4; by rewrite H4, Hdel).
  unfold getNodeData. fold k. rewrite Hd2, Hd3, Hs4, Hv4.
  rewrite decide_True by done. unfold restoredValue. fold k.
  rewrite Hd3, Hv3, lookup_delete_eq. done.
Qed.

(** *** The viewport gate *)

Lemma difference_singleton_absent (k : Key) (s : gset Key) :
  k ∉ s → s ∖ {[k]} = s.
Proof. set_solver. Qed.

Lemma onIntersection_single config env target b st :
  onIntersection config env [(target, b)] st =
  if negb (bool_decide (nodeKey (self target) ∈ itersectStorage st)) || negb b
  then Ok () st
  else intersectNode config env target
         (setItersect (itersectStorage st ∖ {[nodeKey (self target)]})
            (itersectObserved st ∖ {[nodeKey (self target)]}) st).
Proof.
  unfold onIntersection. cbn [forEach fst snd]. rewrite bind_unfold.
  destruct (_ || _); [done|].
  by destruct (intersectNode _ _ _ _) as [[] ?|].
Qed.

Lemma intersectNode_gate config env target st :
  itersectStorage (stateOf (intersectNode config env target st)) = itersectStorage st.
Proof.
  pose proof (forEach_preserves (fannedOut config target st)
                (intersectCallback config env) (childNodes target)
                (λ x s Hx, intersectCallback_fannedOut config env target x st s Hx)
                st (fannedOut_refl _ _ _)) as (_ & Hg & _).
  exact Hg.
Qed.

(** X8.  The callback of the intersection observer does nothing for an
    entry that is not intersecting or whose target is not registered
    with the gate; and it serves a registration once: after it ran for
    an intersecting target, running it for the same target again does
    nothing. *)
Theorem onIntersection_fires_once
  (config : InnerConfig) (env : Env) (target : DomTree) (b : bool) (st : State) :
  (nodeKey (self target) ∉ itersectStorage st ∨ b = false →
   onIntersection config env [(target, b)] st = Ok () st) ∧
  (let st1 := stateOf (onIntersection config env [(target, true)] st) in
   (nodeKey (self target) ∉ itersectStorage st1) ∧
   onIntersection config env [(target, true)] st1 = Ok () st1).
Proof.
  assert (Hskip : ∀ b' s, nodeKey (self target) ∉ itersectStorage s ∨ b' = false →
                          onIntersection config env [(target, b')] s = Ok () s).
  { intros b' s Hs. rewrite onIntersection_single.
    destruct Hs as [Hs| ->].
    - by rewrite bool_decide_eq_false_2.
    - by rewrite orb_true_r. }
  split; [apply Hskip|]. cbv zeta.
  assert (Hout : nodeKey (self target)
                 ∉ itersectStorage (stateOf (onIntersection config env [(target, true)] st))).
  { rewrite onIntersection_single.
    destruct (decide (nodeKey (self target) ∈ itersectStorage st)) as [Hin|Hout].
    - rewrite bool_decide_eq_true_2 by done. cbn [negb orb].
      rewrite intersectNode_gate. cbn. set_solver.
    - by rewrite bool_decide_eq_false_2. }
  split; [done|]. apply Hskip. by left.
Qed.

(** X9.  Registering an element with the viewport gate twice is
    registering it once; so is a deferred [addNode] on the same unit, or
    on another unit of the same element. *)
Theorem gate_registration_idempotent
  (config : InnerConfig) (env : Env) (element : Node) (t : DomTree) (st : State) :
  (let st1 := stateOf (handleElementByIntersectViewport element st) in
   handleElementByIntersectViewport element st1 = Ok () st1) ∧
  (isElement (self t) = false →
   deferred config env (self t) →
   let st1 := stateOf (addNode config env t st) in
   addNode config env t st1 = Ok () st1 ∧
   ∀ t', isElement (self t') = false →
         deferred config env (self t') →
         observableNode (self t') = observableNode (self t) →
         addNode config env t' st1 = Ok () st1).
Proof.
  assert (Htwice : ∀ n s,
    handleElementByIntersectViewport n (stateOf (handleElementByIntersectViewport n s))
    = Ok () (stateOf (handleElementByIntersectViewport n s))).
  { intros n s. unfold handleElementByIntersectViewport at 2 3.
    case_bool_decide as Hin; cbn [stateOf].
    - unfold handleElementByIntersectViewport. by rewrite bool_decide_eq_true_2.
    - unfold handleElementByIntersectViewport.
      rewrite bool_decide_eq_true_2; [done|]. cbn. set_solver. }
  split; [apply Htwice|].
  intros Helem Hdef. cbv zeta.
  destruct (addNodeUnit_deferred config env (self t) st Hdef) as (o & Ho & Hadd).
  assert (Hfirst : addNode config env t st = handleElementByIntersectViewport o st).
  { unfold addNode. by rewrite Helem. }
  rewrite Hfirst. split.
  - unfold addNode. rewrite Helem.
    destruct (addNodeUnit_deferred config env (self t)
                (stateOf (handleElementByIntersectViewport o st)) Hdef)
      as (o' & Ho' & ->).
    assert (o' = o) as -> by congruence. apply Htwice.
  - intros t' Helem' Hdef' Hsame. unfold addNode. rewrite Helem'.
    destruct (addNodeUnit_deferred config env (self t')
                (stateOf (handleElementByIntersectViewport o st)) Hdef')
      as (o' & Ho' & ->).
    assert (o' = o) as -> by congruence. apply Htwice.
Qed.

(** *** Invariants *)

Lemma sound_created values : sound (created values).
Proof.
  unfold sound, created, idsBelowCounter, idsUnique, versionsBounded,
    observersAgree, callsIssued. cbn.
  split_and!; try done;
    try (intros q Hq; by apply elem_of_nil in Hq).
Qed.

Lemma sound_registered env node v st :
  nodeStorage st !! nodeKey node = None →
  sound st → sound (registered env node v st).
Proof.
  intros Hnone (Hbelow & Huniq & Hver & Hobs & Hcalls).
  unfold sound, idsBelowCounter, idsUnique, versionsBounded, observersAgree,
    callsIssued, registered in *. cbn.
  split_and!.
  - intros k d. rewrite lookup_insert. case_decide.
    + intros [= <-]. cbn. lia.
    + intros Hk. specialize (Hbelow k d Hk). lia.
  - intros k1 k2 d1 d2. rewrite !lookup_insert.
    repeat case_decide; try congruence.
    + intros [= <-] Hk2 Hid. cbn in Hid. specialize (Hbelow k2 d2 Hk2). lia.
    + intros Hk1 [= <-] Hid. cbn in Hid. specialize (Hbelow k1 d1 Hk1). lia.
    + apply Huniq.
  - intros k d. rewrite lookup_insert. case_decide.
    + intros [= <-]. cbn. pose proof (getNodeScore_le_4 env node). lia.
    + apply Hver.
  - apply Hobs.
  - apply Hobs.
  - intros q [Hq|Hq]%elem_of_app.
    + specialize (Hcalls q Hq). lia.
    + apply list_elem_of_singleton in Hq as ->. cbn. lia.
Qed.

Lemma sound_handleNode config env node st :
  sound st → sound (stateOf (handleNode config env node st)).
Proof.
  intros Hst.
  destruct (handleNode_cases config env node st)
    as [->|(v & Hnone & _ & _ & _ & ->)]; [done|].
  by apply sound_registered.
Qed.

Lemma sound_gate node st :
  sound st → sound (stateOf (handleElementByIntersectViewport node st)).
Proof.
  intros (Hbelow & Huniq & Hver & [Hgate Hwatch] & Hcalls).
  unfold handleElementByIntersectViewport. case_bool_decide; [done|].
  unfold sound, observersAgree. cbn. split_and!; try done. by rewrite Hgate.
Qed.

Lemma sound_deleteNodeOnlyTarget node st :
  sound st → sound (stateOf (deleteNodeOnlyTarget node st)).
Proof.
  intros (Hbelow & Huniq & Hver & [Hgate Hwatch] & Hcalls).
  destruct (deleteNodeOnlyTarget_effect node st)
    as (st' & -> & Hc & Ht & Ho & Hm & Hs & _ & Hg & Hgo).
  unfold sound, idsBelowCounter, idsUnique, versionsBounded, observersAgree,
    callsIssued in *. cbn. rewrite Hc, Ht, Ho, Hm, Hs, Hg, Hgo.
  split_and!.
  - intros k d [_ Hk]%lookup_delete_Some. eauto.
  - intros k1 k2 d1 d2 [_ Hk1]%lookup_delete_Some [_ Hk2]%lookup_delete_Some. eauto.
  - intros k d [_ Hk]%lookup_delete_Some. eauto.
  - destruct (isElement node); by rewrite ?Hgate.
  - done.
  - done.
Qed.

Lemma sound_updateNode node st :
  sound st → sound (stateOf (updateNode node st)).
Proof.
  intros (Hbelow & Huniq & Hver & Hobs & Hcalls).
  unfold updateNode.
  destruct (nodeStorage st !! nodeKey node) as [d|] eqn:Hd; [|done].
  erewrite translateNode_registered by (cbn; apply lookup_insert_eq).
  specialize (Hbelow _ _ Hd) as Hidd. specialize (Hver _ _ Hd) as Hverd.
  assert (Hrec : sound
            (setNodeStorage
               (<[nodeKey node := withUpdateId (updateId d + 1) d]> (nodeStorage st)) st)).
  { unfold sound, idsBelowCounter, idsUnique, versionsBounded, observersAgree,
      callsIssued in *. cbn. split_and!; try done; try apply Hobs.
    - intros k d'. rewrite lookup_insert. case_decide; [|apply Hbelow].
      intros [= <-]. cbn. lia.
    - intros k1 k2 d1 d2. rewrite !lookup_insert.
      repeat case_decide; try congruence.
      + intros [= <-] Hk2 Hid. cbn in Hid. subst. by apply (Huniq _ _ _ _ Hd Hk2).
      + intros Hk1 [= <-] Hid. cbn in Hid. subst. by apply (Huniq _ _ _ _ Hk1 Hd).
      + apply Huniq.
    - intros k d'. rewrite lookup_insert. case_decide; [|apply Hver].
      intros [= <-]. cbn. lia. }
  cbn [stateOf]. cbn -[N.leb N.add sound].
  destruct (nodeValue st !! nodeKey node) as [text|]; [|exact Hrec].
  destruct (_ <=? _); [exact Hrec|].
  destruct Hrec as (Hb' & Hu' & Hv' & Ho' & Hc').
  unfold sound. split_and!; try done.
  intros q [Hq|Hq]%elem_of_app; [by apply Hcalls|].
  apply list_elem_of_singleton in Hq as ->. cbn. lia.
Qed.

Lemma sound_settleTranslate req outcome st :
  sound st → sound (settleTranslate req outcome st).2.
Proof.
  intros Hst. destruct outcome as [text|reason]; [|done].
  unfold settleTranslate, promiseThen, onTranslated.
  destruct (nodeStorage st !! nodeKey (reqNode req)) as [d|] eqn:Hd; [|done].
  destruct (negb _); [done|]. destruct (negb _); [done|].
  destruct Hst as (Hbelow & Huniq & Hver & Hobs & Hcalls).
  specialize (Hbelow _ _ Hd) as Hidd. specialize (Hver _ _ Hd) as Hverd.
  unfold sound, idsBelowCounter, idsUnique, versionsBounded, observersAgree,
    callsIssued in *. cbn. split_and!; try done; try apply Hobs.
  - intros k d'. rewrite lookup_insert. case_decide; [|apply Hbelow].
    intros [= <-]. cbn. lia.
  - intros k1 k2 d1 d2. rewrite !lookup_insert.
    repeat case_decide; try congruence.
    + intros [= <-] Hk2 Hid. cbn in Hid. subst. by apply (Huniq _ _ _ _ Hd Hk2).
    + intros Hk1 [= <-] Hid. cbn in Hid. subst. by apply (Huniq _ _ _ _ Hk1 Hd).
    + apply Huniq.
  - intros k d'. rewrite lookup_insert. case_decide; [|apply Hver].
    intros [= <-]. cbn. lia.
Qed.

Lemma sound_addNodeUnit config env node st :
  sound st → sound (stateOf (addNodeUnit config env node st)).
Proof.
  intros Hst. destruct (deferred_or_not config env node) as [Hdef|Hdef].
  - destruct (addNodeUnit_deferred _ _ _ st Hdef) as (o & _ & ->).
    by apply sound_gate.
  - rewrite addNodeUnit_not_deferred by done. by apply sound_handleNode.
Qed.

Lemma sound_addNode config env t st :
  sound st → sound (stateOf (addNode config env t st)).
Proof.
  intros Hst. unfold addNode.
  destruct (isElement (self t)); [|by apply sound_addNodeUnit].
  rewrite handleTree_forEach. apply forEach_preserves; [|done].
  intros n s _ Hs. unfold addNodeCallback.
  destruct (isElement n); [done|].
  destruct (isTranslatableNode config n); [|done]. by apply sound_addNodeUnit.
Qed.

Lemma sound_deleteNode t onlyTarget st :
  sound st → sound (stateOf (deleteNode t onlyTarget st)).
Proof.
  intros Hst. unfold deleteNode. rewrite bind_unfold.
  assert (Hfirst : ∃ st1,
    (if isElement (self t) && negb onlyTarget
     then handleTree deleteNodeOnlyTarget t else ret ()) st = Ok () st1 ∧ sound st1).
  { destruct (isElement (self t) && negb onlyTarget); [|by eexists].
    rewrite handleTree_forEach.
    pose proof (forEach_preserves sound deleteNodeOnlyTarget (treeUnits t)
                  (λ n s _, sound_deleteNodeOnlyTarget n s) st Hst) as Hsound.
    pose proof (deleteAll_effect (treeUnits t) st) as H. cbv zeta in H.
    destruct H as [Hok _].
    destruct (forEach deleteNodeOnlyTarget (treeUnits t) st) as [[] st1|]; [|done].
    by eexists. }
  destruct Hfirst as (st1 & -> & Hst1).
  by apply sound_deleteNodeOnlyTarget.
Qed.

Lemma sound_onIntersection config env entries st :
  sound st → sound (stateOf (onIntersection config env entries st)).
Proof.
  intros Hst. unfold onIntersection. apply forEach_preserves; [|done].
  intros [target b] s _ Hs. cbn [fst snd].
  destruct (_ || _); [done|].
  unfold intersectNode. apply forEach_preserves.
  - intros c s' _ Hs'. unfold intersectCallback.
    destruct (_ || _); [done|]. by apply sound_handleNode.
  - destruct Hs as (Hbelow & Huniq & Hver & [Hgate Hwatch] & Hcalls).
    unfold sound, observersAgree. cbn. split_and!; try done. by rewrite Hgate.
Qed.

Lemma sound_handleMutation config env ev st :
  sound st → sound (stateOf (handleMutation config env ev st)).
Proof.
  intros Hst. destruct ev as [target|target|target|target [name|]]; cbn [handleMutation].
  - by apply sound_addNode.
  - by apply sound_deleteNode.
  - by apply sound_updateNode.
  - destruct (negb (isElement (self target))); [done|].
    destruct (getNamedItem name (attributes target)) as [attribute|]; [|done].
    destruct (negb _); [by apply sound_addNodeUnit|by apply sound_updateNode].
  - done.
Qed.

Lemma sound_step config env e st :
  sound st → sound (step config env e st).
Proof.
  intros Hst. destruct e as [root|root|ev|entries|req outcome|node text]; cbn [step].
  - unfold observe. case_bool_decide; [done|].
    apply sound_addNode.
    destruct Hst as (Hbelow & Huniq & Hver & [Hgate Hwatch] & Hcalls).
    unfold sound, observersAgree. cbn. split_and!; try done. by rewrite Hwatch.
  - unfold unobserve. case_bool_decide; [|done]. cbn [negb]. rewrite bind_unfold.
    pose proof (sound_deleteNode root false st Hst) as Hdel.
    pose proof (deleteNode_isOk root false st) as Hok.
    destruct (deleteNode root false st) as [[] st1|]; [|done].
    cbn [stateOf] in Hdel.
    destruct Hdel as (Hbelow & Huniq & Hver & [Hgate Hwatch] & Hcalls).
    unfold sound, observersAgree. cbn. split_and!; try done. by rewrite Hwatch.
  - by apply sound_handleMutation.
  - by apply sound_onIntersection.
  - by apply sound_settleTranslate.
  - by destruct (isElement node).
Qed.

(** Every state a translator gets to keeps the invariants. *)
Lemma reachable_sound config env values st :
  reachable config env values st → sound st.
Proof.
  unfold reachable. revert st.
  apply (rtc_ind_r (λ s, sound s) (created values)).
  - apply sound_created.
  - intros st st' _ [e ->] IH. by apply sound_step.
Qed.

(** X10.  In every state a translator gets to, the identities of the
    records are below the identity counter and no two units carry the
    same identity. *)
Theorem reachable_ids_unique
  (config : InnerConfig) (env : Env) (values : gmap Key string) (st : State) :
  reachable config env values st →
  (∀ k d, nodeStorage st !! k = Some d → id d < idCounter st) ∧
  (∀ k1 k2 d1 d2,
     nodeStorage st !! k1 = Some d1 → nodeStorage st !! k2 = Some d2 →
     k1 ≠ k2 → id d1 ≠ id d2).
Proof.
  intros (Hbelow & Huniq & _)%reachable_sound. split; [exact Hbelow|].
  intros k1 k2 d1 d2 Hk1 Hk2 Hne Hid. by apply Hne, (Huniq k1 k2 d1 d2).
Qed.

(** X11.  In every state a translator gets to, every record has
    [updateId] at least one, [translateContext] at most [updateId + 1],
    and a priority of at most 4; and every call of [translateCallback]
    made so far carried an identity below the counter and a version of
    at least one. *)
Theorem reachable_versions_bounded
  (config : InnerConfig) (env : Env) (values : gmap Key string) (st : State) :
  reachable config env values st →
  (∀ k d, nodeStorage st !! k = Some d →
          1 ≤ updateId d ∧ translateContext d ≤ updateId d + 1 ∧ priority d ≤ 4) ∧
  (∀ q, q ∈ translateCalls st → reqNodeId q < idCounter st ∧ 1 ≤ reqNodeContext q).
Proof.
  intros (_ & _ & Hver & _ & Hcalls)%reachable_sound. done.
Qed.

(** X12.  In every state a translator gets to, the targets of the
    intersection observer are exactly the elements registered with the
    gate, and the roots under a mutation watch are exactly the roots
    recorded as observed. *)
Theorem reachable_observers_agree
  (config : InnerConfig) (env : Env) (values : gmap Key string) (st : State) :
  reachable config env values st →
  itersectObserved st = itersectStorage st ∧
  mutationObserved st = observedNodesStorage st.
Proof.
  intros (_ & _ & _ & Hobs & _)%reachable_sound. exact Hobs.
Qed.

(** *** What [addNode] registers *)

Lemma tracksOnly_refl config env units st : tracksOnly config env units st st.
Proof.
  unfold tracksOnly. split_and!; try done; [auto|].
  exists []. split; [by rewrite app_nil_r|]. by intros q ?%elem_of_nil.
Qed.

Lemma handleNode_tracksOnly config env units n st0 st :
  n ∈ units → isElement n = false →
  tracksOnly config env units st0 st →
  tracksOnly config env units st0 (stateOf (handleNode config env n st)).
Proof.
  intros Hn Helem (Hv & Hkeep & Hnew & new & Hcalls & Hreq).
  destruct (handleNode_cases config env n st)
    as [->|(v & Hnone & Hval & Hws & Htr & ->)].
  { unfold tracksOnly. split_and!; try done. by exists new. }
  unfold tracksOnly, registered. cbn. split_and!.
  - done.
  - intros k d Hk. rewrite lookup_insert_ne; [auto|].
    intros <-. specialize (Hkeep _ _ Hk). congruence.
  - intros k d. rewrite lookup_insert. case_decide as Hk.
    + intros [= <-]. right. exists n, v. subst k. rewrite <- Hv.
      split_and!; done.
    + apply Hnew.
  - exists (new ++ [mkRequest n (idCounter st) 1 v (getNodeScore env n)]).
    split; [by rewrite Hcalls, app_assoc|].
    intros q [Hq|Hq]%elem_of_app; [auto|].
    apply list_elem_of_singleton in Hq as ->. cbn. rewrite <- Hv.
    split_and!; done.
Qed.

Lemma addNodeUnit_tracksOnly config env units n st0 st :
  n ∈ units → isElement n = false →
  tracksOnly config env units st0 st →
  tracksOnly config env units st0 (stateOf (addNodeUnit config env n st)).
Proof.
  intros Hn Helem Hst. destruct (deferred_or_not config env n) as [Hdef|Hdef].
  - destruct (addNodeUnit_deferred _ _ _ st Hdef) as (o & _ & ->).
    pose proof (handleElementByIntersectViewport_frame o st) as H. cbv zeta in H.
    destruct H as (_ & Hs & _ & Hv & Hc & _).
    unfold tracksOnly in *. by rewrite Hs, Hv, Hc.
  - rewrite addNodeUnit_not_deferred by done. by apply handleNode_tracksOnly.
Qed.

Lemma addNode_tracksOnly config env t st :
  tracksOnly config env (treeUnits t) st (stateOf (addNode config env t st)).
Proof.
  unfold addNode. destruct (isElement (self t)) eqn:Helem.
  - rewrite handleTree_forEach.
    apply (forEach_preserves (tracksOnly config env (treeUnits t) st));
      [|apply tracksOnly_refl].
    intros n s Hn Hs. unfold addNodeCallback.
    destruct (isElement n) eqn:Hne; [done|].
    destruct (isTranslatableNode config n); [|done].
    by apply addNodeUnit_tracksOnly.
  - apply addNodeUnit_tracksOnly; [apply self_in_treeUnits|done|apply tracksOnly_refl].
Qed.

(** X13.  [addNode] on a tree writes no node value and changes no
    record it finds.  Every record it adds is for a unit of the walk
    that is not an element, passes the eligibility filter and has a
    value of more than white space; the record starts with
    [updateId = 1], [translateContext = 0], an empty [originalText] and
    the priority of the unit.  Every call of [translateCallback] it
    makes is for such a unit, with the value of the unit as the text
    and version 1. *)
Theorem addNode_registers_only_eligible_units
  (config : InnerConfig) (env : Env) (t : DomTree) (st : State) :
  let st' := stateOf (addNode config env t st) in
  nodeValue st' = nodeValue st ∧
  (∀ k d, nodeStorage st !! k = Some d → nodeStorage st' !! k = Some d) ∧
  (∀ k d, nodeStorage st' !! k = Some d →
          nodeStorage st !! k = Some d ∨
          ∃ n v, n ∈ treeUnits t ∧ k = nodeKey n ∧ isElement n = false ∧
                 isTranslatableNode config n = true ∧
                 nodeValue st !! k = Some v ∧ JsString.allWhiteSpace v = false ∧
                 updateId d = 1 ∧ translateContext d = 0 ∧ originalText d = "" ∧
                 priority d = getNodeScore env n) ∧
  (∃ new, translateCalls st' = translateCalls st ++ new ∧
          ∀ q, q ∈ new →
               reqNode q ∈ treeUnits t ∧ isElement (reqNode q) = false ∧
               isTranslatableNode config (reqNode q) = true ∧
               nodeValue st !! nodeKey (reqNode q) = Some (reqText q) ∧
               reqNodeContext q = 1).
Proof. apply addNode_tracksOnly. Qed.

Lemma addNodeCallback_keeps config env n st k :
  is_Some (nodeStorage st !! k) →
  is_Some (nodeStorage (stateOf (addNodeCallback config env n st)) !! k).
Proof.
  intros [d Hd]. exists d.
  destruct (addNodeCallback_grows config env n st) as (_ & _ & _ & _ & _ & Hkeep & _).
  by apply Hkeep.
Qed.

Lemma forEach_addNode_tracks config env l : ∀ st n v,
  lazyTranslate config = false →
  n ∈ l →
  isElement n = false →
  isTranslatableNode config n = true →
  nodeValue st !! nodeKey n = Some v →
  JsString.allWhiteSpace v = false →
  is_Some (nodeStorage (stateOf (forEach (addNodeCallback config env) l st))
           !! nodeKey n).
Proof.
  induction l as [|x l IH]; intros st n v Hlazy Hn Helem Htr Hv Hws.
  { by apply elem_of_nil in Hn. }
  cbn [forEach]. rewrite bind_unfold.
  destruct (addNodeCallback_grows config env x st) as (Hok & _ & Hval & _).
  destruct (addNodeCallback config env x st) as [[] st1|msg st1] eqn:Hx; [|done].
  cbn in Hval.
  apply elem_of_cons in Hn as [->|Hn].
  - assert (is_Some (nodeStorage st1 !! nodeKey x)) as Hsome.
    { replace st1 with (stateOf (addNodeCallback config env x st)) by (by rewrite Hx).
      unfold addNodeCallback. rewrite Helem, Htr.
      rewrite addNodeUnit_not_deferred by (intros [? _]; congruence).
      by eapply handleNode_tracks. }
    revert Hsome. apply (forEach_preserves
      (λ s, is_Some (nodeStorage s !! nodeKey x))).
    intros y s _. apply addNodeCallback_keeps.
  - apply (IH st1 n v); try done. by rewrite Hval.
Qed.

(** X14.  With lazy mode off, [addNode] on an element leaves every unit
    of the walk tracked that is not an element, passes the eligibility
    filter and has a value of more than white space. *)
Theorem addNode_eager_tracks_every_unit
  (config : InnerConfig) (env : Env) (t : DomTree) (st : State) :
  lazyTranslate config = false →
  isElement (self t) = true →
  ∀ n v, n ∈ treeUnits t →
         isElement n = false →
         isTranslatableNode config n = true →
         nodeValue st !! nodeKey n = Some v →
         JsString.allWhiteSpace v = false →
         is_Some (nodeStorage (stateOf (addNode config env t st)) !! nodeKey n).
Proof.
  intros Hlazy Helem n v Hn Hne Htr Hv Hws.
  unfold addNode. rewrite Helem, handleTree_forEach.
  by eapply forEach_addNode_tracks.
Qed.

(** *** Removing twice *)

Lemma State_eta st :
  mkState (nodeValue st) (idCounter st) (nodeStorage st) (itersectStorage st)
    (itersectObserved st) (observedNodesStorage st) (mutationObserved st)
    (translateCalls st) = st.
Proof. by destruct st. Qed.

(** [deleteNode(node, true)] does nothing on a node that has no record
    and, when it is an element, no registration with the gate. *)
Lemma deleteNodeOnlyTarget_noop n st :
  nodeStorage st !! nodeKey n = None →
  (isElement n = true →
   (nodeKey n ∉ itersectStorage st) ∧ (nodeKey n ∉ itersectObserved st)) →
  deleteNodeOnlyTarget n st = Ok () st.
Proof.
  intros Hnone Hgate. unfold deleteNodeOnlyTarget.
  destruct (isElement n).
  - destruct (Hgate eq_refl) as [Hg Hgo]. cbn.
    rewrite Hnone, !difference_singleton_absent by done. by rewrite State_eta.
  - by rewrite Hnone.
Qed.

Lemma deleteAll_noop l : ∀ st,
  (∀ n, n ∈ l →
        nodeStorage st !! nodeKey n = None ∧
        (isElement n = true →
         (nodeKey n ∉ itersectStorage st) ∧ (nodeKey n ∉ itersectObserved st))) →
  forEach deleteNodeOnlyTarget l st = Ok () st.
Proof.
  induction l as [|n l IH]; intros st Hl; [done|].
  cbn [forEach]. rewrite bind_unfold.
  destruct (Hl n ltac:(left)) as [Hnone Hgate].
  rewrite deleteNodeOnlyTarget_noop by done.
  apply IH. intros m Hm. apply Hl. by right.
Qed.

(** X15.  Removing twice is removing once: [deleteNode] run again on
    the same node, with the same [onlyTarget], changes nothing. *)
Theorem deleteNode_idempotent (t : DomTree) (onlyTarget : bool) (st : State) :
  let st1 := stateOf (deleteNode t onlyTarget st) in
  deleteNode t onlyTarget st1 = Ok () st1.
Proof.
  cbv zeta. destruct (isElement (self t) && negb onlyTarget) eqn:Hrec.
  - apply andb_true_iff in Hrec as [Helem Hnot].
    apply negb_true_iff in Hnot as ->.
    rewrite !deleteNode_forEach by done.
    pose proof (deleteAll_effect (treeUnits t ++ [self t]) st) as H. cbv zeta in H.
    destruct H as (_ & _ & _ & _ & _ & Hs & _ & Hgate & _).
    apply deleteAll_noop. intros n Hn. split.
    + rewrite Hs. rewrite decide_True; [done|]. by apply list_elem_of_fmap_2.
    + intros Hne. by apply Hgate.
  - assert (Hone : ∀ s, deleteNode t onlyTarget s = deleteNodeOnlyTarget (self t) s).
    { intros s. unfold deleteNode. by rewrite Hrec. }
    rewrite !Hone.
    destruct (deleteNodeOnlyTarget_effect (self t) st)
      as (st1 & -> & _ & _ & _ & _ & Hs & _ & Hg & Hgo).
    cbn [stateOf]. apply deleteNodeOnlyTarget_noop.
    + rewrite Hs. apply lookup_delete_eq.
    + intros Helem. rewrite Hg, Hgo, Helem. set_solver.
Qed.

(** *** Observing and letting go *)


(** X17.  In lazy mode, [addNode] on a deferred unit that is untracked,
    eligible and has a value of more than white space leaves it without
    a record and registers its element with the gate; when the element
    is then reported as intersecting, and the unit is one of its direct
    children, the unit gets its record and the registration is gone. *)
Theorem deferred_unit_tracked_when_visible
  (config : InnerConfig) (env : Env) (target child : DomTree)
  (v : string) (st : State) :
  let node := self child in
  isElement node = false →
  child ∈ childNodes target →
  observableNode node = Some (self target) →
  deferred config env node →
  nodeStorage st !! nodeKey node = None →
  nodeValue st !! nodeKey node = Some v →
  JsString.allWhiteSpace v = false →
  isTranslatableNode config node = true →
  let st1 := stateOf (addNode config env child st) in
  let st2 := stateOf (onIntersection config env [(target, true)] st1) in
  nodeStorage st1 !! nodeKey node = None ∧
  translateCalls st1 = translateCalls st ∧
  nodeKey (self target) ∈ itersectStorage st1 ∧
  is_Some (nodeStorage st2 !! nodeKey node) ∧
  (nodeKey (self target) ∉ itersectStorage st2).
Proof.
  intros node Helem Hchild Hown Hdef Hnone Hv Hws Htr. cbv zeta.
  destruct (addNodeUnit_deferred config env node st Hdef) as (o & Ho & Hadd).
  assert (o = self target) as -> by congruence.
  assert (Hfirst : addNode config env child st
                   = handleElementByIntersectViewport (self target) st).
  { unfold addNode. fold node. by rewrite Helem. }
  rewrite Hfirst.
  pose proof (handleElementByIntersectViewport_frame (self target) st) as H.
  cbv zeta in H. destruct H as (_ & Hs & _ & Hval & Hc & _ & _ & Hin & _).
  set (st1 := stateOf (handleElementByIntersectViewport (self target) st)) in *.
  split_and!; try congruence; try done.
  - rewrite onIntersection_single. rewrite bool_decide_eq_true_2 by done.
    cbn [negb orb]. rewrite intersectNode_forEach.
    eapply (forEach_intersect_tracks config env (childNodes target) _ child v);
      try done.
    cbn. fold node. congruence.
  - rewrite onIntersection_single. rewrite bool_decide_eq_true_2 by done.
    cbn [negb orb]. rewrite intersectNode_gate. cbn. set_solver.
Qed.

(** *** The laws on the page *)

Import Page.

Lemma observed_reachable :
  reachable eager env values (stateOf (observe eager env htmlTree initial)).
Proof. apply rtc_once. by exists (Observe htmlTree). Qed.

Lemma edit_in_flight_discards_result_witness :
  settleTranslate helloRequest (Fulfilled "Bonjour") (stateOf (updateNode hello tracked))
  = (Fulfilled None, stateOf (updateNode hello tracked)).
Proof.
  assert (Hd : nodeStorage tracked !! nodeKey (reqNode helloRequest)
               = Some (mkNodeData 0 1 0 "" 4)) by (vm_compute; reflexivity).
  exact (edit_in_flight_discards_result helloRequest "Bonjour" tracked
           (mkNodeData 0 1 0 "" 4) Hd ltac:(cbn; lia)).
Defined.

Lemma removal_discards_results_witness :
  settleTranslate helloRequest (Fulfilled "Bonjour")
    (stateOf (deleteNode divTree false tracked))
  = (Fulfilled None, stateOf (deleteNode divTree false tracked)).
Proof.
  assert (Hin : reqNode helloRequest ∈ treeUnits divTree).
  { cbn. do 4 right. left. }
  assert (Hid : reqNodeId helloRequest < idCounter tracked)
    by (vm_compute; reflexivity).
  pose proof (removal_discards_results eager env divTree helloRequest "Bonjour"
                tracked eq_refl Hin Hid) as H.
  cbv zeta in H. destruct H as [H _]. exact H.
Defined.

Lemma translate_then_remove_restores_witness :
  nodeValue (stateOf (deleteNode (leaf hello) false translated)) !! nodeKey hello
  = Some "Hello".
Proof.
  assert (Hv : nodeValue initial !! nodeKey (self (leaf hello)) = Some "Hello")
    by (vm_compute; reflexivity).
  assert (Htr : isTranslatableNode eager (self (leaf hello)) = true)
    by (vm_compute; reflexivity).
  pose proof (translate_then_remove_restores eager env (leaf hello) "Hello" "Bonjour"
                initial eq_refl eq_refl Hv eq_refl Htr) as H.
  cbv zeta in H. destruct H as (_ & _ & _ & _ & _ & _ & H & _).
  assert (Heq : translated
                = stateOf (updateNode (self (leaf hello))
                    (settleTranslate
                       (mkRequest (self (leaf hello)) (idCounter initial) 1 "Hello"
                          (getNodeScore env (self (leaf hello))))
                       (Fulfilled "Bonjour")
                       (stateOf (handleNode eager env (self (leaf hello)) initial))).2))
    by (vm_compute; reflexivity).
  rewrite Heq. exact H.
Defined.

Lemma reachable_ids_unique_witness :
  id (mkNodeData 1 1 0 "" 4) < idCounter (stateOf (observe eager env htmlTree initial)).
Proof.
  pose proof (reachable_ids_unique eager env values _ observed_reachable) as [H _].
  apply (H 7%positive). vm_compute. reflexivity.
Defined.

Lemma reachable_versions_bounded_witness :
  reqNodeId helloRequest < idCounter (stateOf (observe eager env htmlTree initial)).
Proof.
  pose proof (reachable_versions_bounded eager env values _ observed_reachable)
    as [_ H].
  assert (Hq : mkRequest hello 1 1 "Hello" 4
               ∈ translateCalls (stateOf (observe eager env htmlTree initial))).
  { vm_compute. right. left. }
  destruct (H _ Hq) as [Hlt _]. cbn in Hlt |- *. lia.
Defined.

Lemma reachable_observers_agree_witness :
  mutationObserved (stateOf (observe eager env htmlTree initial))
  = observedNodesStorage (stateOf (observe eager env htmlTree initial)).
Proof.
  pose proof (reachable_observers_agree eager env values _ observed_reachable)
    as [_ H].
  exact H.
Defined.

Lemma addNode_eager_tracks_every_unit_witness :
  is_Some (nodeStorage (stateOf (addNode eager env htmlTree initial)) !! nodeKey title).
Proof.
  assert (Hlazy : lazyTranslate eager = false) by (vm_compute; reflexivity).
  assert (Hin : title ∈ treeUnits htmlTree).
  { cbn. do 3 right. left. }
  assert (Htr : isTranslatableNode eager title = true) by (vm_compute; reflexivity).
  assert (Hv : nodeValue initial !! nodeKey title = Some "Hola")
    by (vm_compute; reflexivity).
  exact (addNode_eager_tracks_every_unit eager env htmlTree initial Hlazy eq_refl
           title "Hola" Hin eq_refl Htr Hv eq_refl).
Defined.


Lemma deferred_unit_tracked_when_visible_witness :
  is_Some
    (nodeStorage
       (stateOf (onIntersection lazy env [(divTree, true)]
                   (stateOf (addNode lazy env (leaf hello) initial))))
     !! nodeKey hello).
Proof.
  assert (Hchild : leaf hello ∈ childNodes divTree).
  { cbn. right. left. }
  assert (Hdef : deferred lazy env (self (leaf hello))).
  { split_and!; [vm_compute; reflexivity|reflexivity|].
    exists div. split; [reflexivity|vm_compute; reflexivity]. }
  assert (Hv : nodeValue initial !! nodeKey (self (leaf hello)) = Some "Hello")
    by (vm_compute; reflexivity).
  assert (Htr : isTranslatableNode lazy (self (leaf hello)) = true)
    by (vm_compute; reflexivity).
  pose proof (deferred_unit_tracked_when_visible lazy env divTree (leaf hello) "Hello"
                initial eq_refl Hchild eq_refl Hdef eq_refl Hv eq_refl Htr) as H.
  cbv zeta in H. destruct H as (_ & _ & _ & H & _). exact H.
Defined.

End NodesTranslatorLaws.

(** ** The session *)

Module PageTranslatorFacts.

Import PageTranslator.


Lemma create_tokenMade popup : tokenMade (create popup).
Proof. unfold tokenMade. cbn. lia. Qed.

Lemma settle_context c outcome st :
  symbols (settle c outcome st).2 = symbols st ∧
  translateContext (settle c outcome st).2 = translateContext st.
Proof.
  unfold settle, promiseThen, promiseCatchRethrow, promiseFinally,
    onResolved, onRejected, onFinally.
  destruct outcome; cbn; repeat case_bool_decide; cbn; try done.
Qed.

(** The handlers of a call whose token is not the current one write
    nothing, and the outcome passes through. *)
Lemma settle_outdated c outcome st :
  localContext c ≠ translateContext st →
  settle c outcome st = (outcome, st).
Proof.
  intros Hne.
  unfold settle, promiseThen, promiseCatchRethrow, promiseFinally,
    onResolved, onRejected, onFinally.
  destruct outcome; cbn;
    repeat (rewrite (bool_decide_eq_false_2 _ Hne); cbn); done.
Qed.

Lemma translateText_Ok c st st' :
  translateText c st = Ok () st' →
  localContext c = translateContext st ∧
  symbols st' = symbols st ∧
  translateContext st' = translateContext st.
Proof.
  unfold translateText. case_bool_decide as Hctx; [|done].
  cbn. by intros [= <-].
Qed.

Lemma run_Ok from to c st st' :
  run from to st = Ok c st' →
  localContext c = translateContext st' ∧
  localTranslateState c = translateState st' ∧
  translateContext st' = symbols st ∧
  symbols st' = symbols st + 1.
Proof.
  unfold run. destruct (pageTranslator st); [done|]. by intros [= <- <-].
Qed.

Lemma stop_Ok st st' :
  stop st = Ok () st' →
  translateContext st' = symbols st ∧ symbols st' = symbols st + 1.
Proof.
  unfold stop. destruct (pageTranslator st); [|done]. by intros [= <-].
Qed.

(** A step keeps [tokenMade], and a token that is outdated stays so:
    the only new current tokens are fresh symbols. *)
Lemma Step_outdated t st st' :
  Step st st' →
  tokenMade st →
  tokenMade st' ∧ (outdated t st → outdated t st').
Proof.
  unfold tokenMade, outdated.
  intros Hstep Hmade. destruct Hstep as
    [from to c st st' Hrun|st st' Hstop|c st st' Htext|c outcome st|popup st].
  - apply run_Ok in Hrun as (_ & _ & -> & ->). split; [lia|]. intros [? ?]. lia.
  - apply stop_Ok in Hstop as (-> & ->). split; [lia|]. intros [? ?]. lia.
  - apply translateText_Ok in Htext as (_ & -> & ->). done.
  - destruct (settle_context c outcome st) as [-> ->]. done.
  - done.
Qed.

Lemma Steps_outdated t st st' :
  rtc Step st st' →
  tokenMade st →
  tokenMade st' ∧ (outdated t st → outdated t st').
Proof.
  induction 1 as [st|st st1 st' Hstep _ IH]; intros Hmade; [done|].
  destruct (Step_outdated t _ _ Hstep Hmade) as [Hmade1 Hout1].
  destruct (IH Hmade1) as [Hmade' Hout']. auto.
Qed.

(** C10.  [translateText] goes through only when the token its [run]
    captured is the current one, so a call that was issued captured the
    token of the session it was issued in; the function made by [run]
    captures the token that [run] minted.  Take a call issued in a
    state a [PageTranslator] can reach.  Once [stop] has run after it,
    whatever happens next (further runs, stops, calls, settlements),
    the settlement of that call, fulfilled or rejected, passes the
    outcome through and leaves the whole state as it is: no counter of
    any [{resolved, rejected, pending}] object is written, and
    [translateStateUpdate] is not called. *)
Theorem settle_after_stop_writes_nothing
  (popup : bool) (c : Closure) (outcome : Settled string)
  (st0 st st' st1 st2 : State) :
  rtc Step (create popup) st0 →
  translateText c st0 = Ok () st →
  rtc Step st st' →
  stop st' = Ok () st1 →
  rtc Step st1 st2 →
  localContext c = translateContext st0 ∧
  (∀ from to s c' s', run from to s = Ok c' s' →
                      localContext c' = translateContext s') ∧
  outdated (localContext c) st2 ∧
  settle c outcome st2 = (outcome, st2) ∧
  objects (settle c outcome st2).2 = objects st2 ∧
  translateState (settle c outcome st2).2 = translateState st2 ∧
  translateText c st2 = Throw "Outdated context" st2.
Proof.
  intros Hreach Hcall Hsession Hstop Hafter.
  destruct (translateText_Ok _ _ _ Hcall) as (Hctx & Hsym & Hctx').
  destruct (Steps_outdated 0 _ _ Hreach (create_tokenMade popup)) as [Hmade0 _].
  assert (Hmade : tokenMade st) by (unfold tokenMade in *; congruence).
  destruct (Steps_outdated 0 _ _ Hsession Hmade) as [Hmade' _].
  assert (Hlt : localContext c < symbols st').
  { assert (Hmono : ∀ a b, rtc Step a b → symbols a ≤ symbols b).
    { clear. induction 1 as [|a b b' Hab _ IH]; [lia|].
      etrans; [|exact IH]. destruct Hab as
        [from to c st st' Hrun|st st' Hstop|c st st' Htext|c outcome st|popup st].
      - apply run_Ok in Hrun as (_ & _ & _ & ->). lia.
      - apply stop_Ok in Hstop as (_ & ->). lia.
      - apply translateText_Ok in Htext as (_ & -> & _). lia.
      - destruct (settle_context c outcome st) as [-> _]. lia.
      - cbn. lia. }
    specialize (Hmono _ _ Hsession). unfold tokenMade in Hmade0. lia. }
  destruct (stop_Ok _ _ Hstop) as [Hctx1 Hsym1].
  assert (Hout1 : outdated (localContext c) st1).
  { unfold outdated. rewrite Hctx1, Hsym1. lia. }
  assert (Hmade1 : tokenMade st1).
  { unfold tokenMade. rewrite Hctx1, Hsym1. lia. }
  destruct (Steps_outdated (localContext c) _ _ Hafter Hmade1) as [_ Hout2].
  specialize (Hout2 Hout1).
  assert (Hne : localContext c ≠ translateContext st2) by apply Hout2.
  split_and!; try done.
  - intros from to s c' s' Hrun. by apply run_Ok in Hrun as (? & _).
  - by apply settle_outdated.
  - by rewrite settle_outdated.
  - by rewrite settle_outdated.
  - unfold translateText. by rewrite bool_decide_eq_false_2.
Qed.

Example session_counters :
  objects called !! 1%positive = Some (mkCounters 0 0 1) ∧
  objects (settle session (Fulfilled "bonjour") called).2 !! 1%positive
    = Some (mkCounters 1 0 0) ∧
  objects (settle session (Rejected "network") called).2 !! 1%positive
    = Some (mkCounters 0 1 0) ∧
  translateState stopped = 2%positive ∧
  objects stopped !! 2%positive = Some (mkCounters 0 0 0).
Proof. split_and!; vm_compute; reflexivity. Qed.

Lemma settle_after_stop_writes_nothing_witness :
  settle session (Fulfilled "bonjour") stopped = (Fulfilled "bonjour", stopped).
Proof.
  assert (Hreach : rtc Step (create false) started).
  { apply rtc_once. by apply (StepRun "en" "fr" session). }
  assert (Hcall : translateText session started = Ok () called)
    by (vm_compute; reflexivity).
  assert (Hstop : stop called = Ok () stopped) by (vm_compute; reflexivity).
  pose proof (settle_after_stop_writes_nothing false session (Fulfilled "bonjour")
                started called called stopped stopped
                Hreach Hcall (rtc_refl _ _) Hstop (rtc_refl _ _)) as H.
  destruct H as (_ & _ & _ & H & _). exact H.
Defined.

End PageTranslatorFacts.

(** ** The session: further properties *)

Module PageTranslatorLaws.

Import PageTranslator PageTranslatorFacts.


Lemma settle_frame c outcome st :
  symbols (settle c outcome st).2 = symbols st ∧
  translateContext (settle c outcome st).2 = translateContext st ∧
  pageTranslator (settle c outcome st).2 = pageTranslator st ∧
  pageTranslateDirection (settle c outcome st).2 = pageTranslateDirection st ∧
  translateState (settle c outcome st).2 = translateState st.
Proof.
  unfold settle, promiseThen, promiseCatchRethrow, promiseFinally,
    onResolved, onRejected, onFinally.
  destruct outcome; cbn; repeat case_bool_decide; cbn; try done.
Qed.

(** X19.  For a call whose token is the current one and whose counters
    object is [o]: [translateText] raises [pending] by one; when the
    call is fulfilled, the text passes through, [resolved] goes up by
    one and [pending] down by one; when it is rejected, the reason
    passes through, [rejected] goes up by one and [pending] down by one.
    No other object is written. *)
Theorem settle_current_counts
  (c : Closure) (o : PageTranslateState) (text reason : string) (st : State) :
  let r := localTranslateState c in
  localContext c = translateContext st →
  objects st !! r = Some o →
  objects (stateOf (translateText c st)) !! r
    = Some (mkCounters (resolved o) (rejected o) (pending o + 1)) ∧
  isOk (translateText c st) = true ∧
  (settle c (Fulfilled text) st).1 = Fulfilled text ∧
  objects (settle c (Fulfilled text) st).2 !! r
    = Some (mkCounters (resolved o + 1) (rejected o) (pending o - 1)) ∧
  (settle c (Rejected reason) st).1 = Rejected reason ∧
  objects (settle c (Rejected reason) st).2 !! r
    = Some (mkCounters (resolved o) (rejected o + 1) (pending o - 1)) ∧
  (∀ outcome r', r' ≠ r →
     objects (settle c outcome st).2 !! r' = objects st !! r' ∧
     objects (stateOf (translateText c st)) !! r' = objects st !! r').
Proof.
  intros r Hctx Ho.
  assert (Hdec : bool_decide (localContext c = translateContext st) = true)
    by (by apply bool_decide_eq_true_2).
  assert (Hsettle : ∀ outcome,
    settle c outcome st =
    (outcome,
     translateStateUpdate
       (updateObject r decrPending
          (updateObject r
             (match outcome with Fulfilled _ => incrResolved | Rejected _ => incrRejected end)
             st)))).
  { intros outcome.
    unfold settle, promiseThen, promiseCatchRethrow, promiseFinally,
      onResolved, onRejected, onFinally. fold r.
    destruct outcome; rewrite Hdec; cbn; by rewrite Hdec. }
  rewrite !Hsettle. unfold translateText. rewrite Hdec. cbn. fold r.
  split_and!; try done.
  - by rewrite lookup_alter_eq, Ho.
  - by rewrite !lookup_alter_eq, Ho.
  - by rewrite !lookup_alter_eq, Ho.
  - intros outcome r' Hne. rewrite Hsettle. cbn.
    split; by rewrite !lookup_alter_ne.
Qed.

Lemma Step_liveIn c st st' : Step st st' → liveIn c st → liveIn c st'.
Proof.
  unfold liveIn. intros Hstep [Hlt Hlive].
  destruct Hstep as
    [from to c0 st st' Hrun|st st' Hstop|c0 st st' Htext|c0 outcome st|popup st].
  - apply run_Ok in Hrun as (_ & _ & -> & ->). split; [lia|]. intros ?. lia.
  - apply stop_Ok in Hstop as (-> & ->). split; [lia|]. intros ?. lia.
  - unfold translateText in Htext. destruct (negb _); [done|].
    injection Htext as <-. done.
  - destruct (settle_frame c0 outcome st) as (-> & -> & -> & -> & ->). done.
  - done.
Qed.

(** X20.  Take the function [translateText] that a [run] made, in a
    session that a new [PageTranslator] can get to.  Whatever happens
    afterwards, as long as its token is the current one, the session is
    still running in the direction of that [run], and the object its
    calls count in is the one [getStatus] returns. *)
Theorem current_token_counts_in_status
  (popup : bool) (from to : string) (c : Closure) (s s' st : State) :
  rtc Step (create popup) s →
  run from to s = Ok c s' →
  rtc Step s' st →
  localContext c = translateContext st →
  translateState st = localTranslateState c ∧
  getStatus st = objects st !! localTranslateState c ∧
  isRun st = true ∧
  getTranslateDirection st = Some (from, to).
Proof.
  intros Hreach Hrun Hsteps Hctx.
  assert (Hlive : liveIn c s').
  { unfold run in Hrun. destruct (pageTranslator s); [done|].
    injection Hrun as <- <-. unfold liveIn. cbn. split; [lia|]. done. }
  assert (Hst : liveIn c st).
  { clear -Hsteps Hlive. induction Hsteps as [|a b b' Hab _ IH]; [done|].
    apply IH. by eapply Step_liveIn. }
  destruct Hst as [_ Hst]. destruct (Hst Hctx) as (Hobj & Hrunning & Hdir).
  unfold getStatus, isRun, getTranslateDirection. rewrite Hobj, Hrunning, Hdir.
  split_and!; try done.
  unfold run in Hrun. destruct (pageTranslator s); [done|]. by injection Hrun as <- _.
Qed.

(** A session in which a call is in flight. *)
Lemma current_token_counts_in_status_witness :
  getStatus called = objects called !! localTranslateState session.
Proof.
  assert (Hrun : run "en" "fr" (create false) = Ok session started)
    by (vm_compute; reflexivity).
  assert (Hcall : translateText session started = Ok () called)
    by (vm_compute; reflexivity).
  pose proof (current_token_counts_in_status false "en" "fr" session
                (create false) started called (rtc_refl _ _) Hrun
                (rtc_once _ _ (StepTranslateText _ _ _ Hcall))
                ltac:(vm_compute; reflexivity)) as H.
  destruct H as (_ & H & _). exact H.
Defined.

Lemma settle_current_counts_witness :
  objects (settle session (Fulfilled "bonjour") called).2 !! localTranslateState session
  = Some (mkCounters 1 0 0).
Proof.
  assert (Ho : objects called !! localTranslateState session = Some (mkCounters 0 0 1))
    by (vm_compute; reflexivity).
  pose proof (settle_current_counts session (mkCounters 0 0 1) "bonjour" "network"
                called ltac:(vm_compute; reflexivity) Ho) as H.
  cbv zeta in H. destruct H as (_ & _ & _ & H & _). exact H.
Defined.

End PageTranslatorLaws.

(** ** The throttle of the status reports *)

Module StatusThrottleLaws.

Import StatusThrottle.

Local Open Scope Z_scope.

Lemma spaced_cons a l :
  spaced l →
  match l with b :: _ => b + updateTimeout ≤ a | [] => True end →
  spaced (a :: l).
Proof. destruct l; cbn; auto. Qed.

Lemma Step_paced c st c' st' :
  Step (c, st) (c', st') → paced c st → paced c' st'.
Proof.
  intros Hstep (Hlast & Hspaced & Hhead & Htimer).
  inversion Hstep as [? ? now sendTime Hnow Hsend|? ? due sendTime Hdue Hclock Hlate];
    subst; unfold paced.
  - unfold translateStateUpdate, updateTimeout in *.
    destruct (timer st) as [due|] eqn:Ht.
    { rewrite Ht. split_and!; try done. lia. }
    destruct (Z.leb_spec 100 (now - lastSentUpdate st)) as [Hidle|Hidle]; cbn.
    + rewrite Ht. split_and!; try done; try lia.
      apply spaced_cons; [done|]. destruct (sent st); [done|].
      unfold updateTimeout. lia.
    + split_and!; try done; try lia. intros due [= <-]. lia.
  - cbn. specialize (Htimer _ Hdue). unfold updateTimeout in *.
    split_and!; try done; try lia.
    apply spaced_cons; [done|]. destruct (sent st); [done|].
    unfold updateTimeout. lia.
Qed.

Lemma Steps_paced a b :
  rtc Step a b → paced a.1 a.2 → paced b.1 b.2.
Proof.
  induction 1 as [|[c st] [c' st'] z Hstep _ IH]; [done|].
  intros Hp. apply IH. by eapply Step_paced.
Qed.

(** X21.  Start from a new throttle with the clock at or after zero,
    and let calls of [translateStateUpdate] and timer callbacks happen
    in any order, the clock never going back and no timer running
    before its time.  Then any two consecutive reports are at least 100
    milliseconds apart; a pending timer is due exactly 100 milliseconds
    after the last report; while a timer is pending a call of
    [translateStateUpdate] does nothing; and with no timer pending and
    the last report 100 milliseconds or more ago a call reports at
    once. *)
Theorem reports_are_spaced (clock0 clock : Z) (st : State) :
  0 ≤ clock0 →
  rtc Step (clock0, create) (clock, st) →
  spaced (sent st) ∧
  (∀ due, timer st = Some due → due = lastSentUpdate st + 100) ∧
  (∀ now sendTime, is_Some (timer st) → translateStateUpdate now sendTime st = st) ∧
  (∀ now sendTime, timer st = None → lastSentUpdate st + 100 ≤ now →
                   sent (translateStateUpdate now sendTime st) = sendTime :: sent st).
Proof.
  intros Hclock Hsteps.
  pose proof (Steps_paced _ _ Hsteps) as Hp. cbn in Hp.
  destruct Hp as (_ & Hspaced & _ & Htimer).
  { unfold paced, create. cbn. split_and!; try done. }
  split_and!; try done.
  - intros now sendTime [due Hdue]. unfold translateStateUpdate. by rewrite Hdue.
  - intros now sendTime Hnone Hidle. unfold translateStateUpdate, updateTimeout.
    rewrite Hnone.
    destruct (Z.leb_spec 100 (now - lastSentUpdate st)); [done|lia].
Qed.

Example burst_reports :
  sent (translateStateUpdate 1000 1000 create) = [1000] ∧
  timer (translateStateUpdate 1010 1010 (translateStateUpdate 1000 1000 create))
    = Some 1100 ∧
  sent (translateStateUpdate 1050 1050
          (translateStateUpdate 1010 1010 (translateStateUpdate 1000 1000 create)))
    = [1000] ∧
  sent burst = [1100; 1000] ∧ timer burst = None.
Proof. split_and!; reflexivity. Qed.

Lemma reports_are_spaced_witness : spaced (sent burst).
Proof.
  assert (Hsteps : rtc Step (0, create) (1100, burst)).
  { eapply rtc_l; [apply (StepCall 0 create 1000 1000); lia|].
    eapply rtc_l; [apply (StepCall 1000 _ 1010 1010); lia|].
    eapply rtc_l; [apply (StepCall 1010 _ 1050 1050); lia|].
    eapply rtc_l; [|apply rtc_refl].
    apply (StepFire 1050 _ 1100 1100); [reflexivity|lia|lia]. }
  pose proof (reports_are_spaced 0 1100 burst ltac:(lia) Hsteps) as H.
  destruct H as (H & _). exact H.
Defined.

End StatusThrottleLaws.

(** ** The text of the popup *)

Module OriginalTextLaws.

Import OriginalText.

Lemma getTextOfElement_empty pageTranslator display :
  (∀ n, originalTextOf pageTranslator n = "") →
  ∀ t, getTextOfElement pageTranslator display t = "".
Proof.
  intros Hnone t.
  induction t as [node shadow attrs children _ IH]
    using NodesTranslatorFacts.DomTree_forall_ind.
  cbn [getTextOfElement]. destruct (isText node); [apply Hnone|].
  destruct (isElement node); [|done].
  induction children as [|c children IHc]; [done|].
  inversion IH as [|? ? Hc Hrest]; subst.
  destruct (isText (self c)); [by rewrite Hnone, IHc|].
  destruct (_ && _); [|done]. by rewrite Hc, IHc.
Qed.

(** X22.  The text of the popup is empty, and no popup is mounted, when
    no translator runs or the translator tracks nothing.  In an
    element, the children after the first child that is neither a text
    node nor a non-block element add nothing to the text. *)
Theorem popup_text_stops_at_blocks
  (pageTranslator : option NodesTranslator.State) (display : Key → string) :
  ((pageTranslator = None ∨
    ∃ st, pageTranslator = Some st ∧ NodesTranslator.nodeStorage st = ∅) →
   ∀ t, getTextOfElement pageTranslator display t = "" ∧
        showOriginalTextHandler pageTranslator display t = None) ∧
  (∀ target shadow attrs before stop after,
     isText target = false →
     isElement target = true →
     stopsLoop display (self stop) →
     getTextOfElement pageTranslator display
       (TNode target shadow attrs (before ++ stop :: after))
     = getTextOfElement pageTranslator display (TNode target shadow attrs before)).
Proof.
  split.
  - intros Hoff t.
    assert (Hnone : ∀ n, originalTextOf pageTranslator n = "").
    { intros n. unfold originalTextOf.
      destruct Hoff as [->|(st & -> & Hempty)]; [done|].
      cbn. unfold NodesTranslator.getNodeData. by rewrite Hempty, lookup_empty. }
    pose proof (getTextOfElement_empty pageTranslator display Hnone t) as Htext.
    split; [done|]. unfold showOriginalTextHandler. rewrite Htext.
    by rewrite bool_decide_eq_true_2.
  - intros target shadow attrs before stop after Htext Helem [Hnt Hstop].
    cbn [getTextOfElement]. rewrite Htext, Helem.
    induction before as [|c before IH]; cbn [app].
    + rewrite Hnt. destruct Hstop as [->|Hblock]; [done|].
      rewrite Hblock. by rewrite andb_false_r.
    + by rewrite IH.
Qed.

End OriginalTextLaws.
